(** * Socks: JSON IPC over pluggable transports — a shallow embedding

    The development follows the C++ sources of the library:
    - [Json]       the part of the JSON value model the code relies on;
    - [Schema]     schema.hpp / schema.cpp ([assert_parameters]);
    - [ThreadPool] threadpool.hpp / threadpool.cpp;
    - [Transport]  transport.cpp (server-side [send] of the three backends);
    - [Server]     server.cpp ([okay], [error], the per-message task);
    - [Client]     client.cpp ([send_request], [send_request_bg]);
    - [TransportIO] transport.cpp ([bind], [receive], client-role [send],
                   [close]);
    - [ServerLoop] server.cpp (the serving loop without a pool).

    C++ exceptions are made explicit with the [result] type; code that
    performs calls whose order matters threads a log through the [M] monad. *)

From Stdlib Require Import ZArith String Ascii List Bool Lia.
From Stdlib Require Import Floats.SpecFloat.
From stdpp Require Import gmap strings list fin_maps relations.

#[local] Set Warnings "-register-all".
#[local] Open Scope string_scope.
#[local] Open Scope list_scope.

(** ** Exceptions *)

(** The exception classes that occur in the sources.  Everything except
    [foreign] derives from [std::exception]; [foreign] stands for a thrown
    value of any other type, which [catch (const std::exception &)] lets
    through and only [catch (...)] stops. *)
Inductive exn : Type :=
| runtime_error (what : string)
| invalid_argument (what : string)
| out_of_range (what : string)
| json_exception (what : string)
| foreign.

(** [e.what()] for the handlers written [catch (const std::exception &e)]. *)
Definition std_what (e : exn) : option string :=
  match e with
  | runtime_error w | invalid_argument w | out_of_range w | json_exception w =>
      Some w
  | foreign => None
  end.

Inductive result (A : Type) : Type :=
| Ok (a : A)
| Throw (e : exn).
Arguments Ok {A} a.
Arguments Throw {A} e.

Definition result_bind {A B} (r : result A) (k : A -> result B) : result B :=
  match r with
  | Ok a => k a
  | Throw e => Throw e
  end.

Declare Scope result_scope.
Delimit Scope result_scope with result.
Notation "'try!' x <- r ; k" := (result_bind r (fun x => k))
  (at level 10, x name, r at level 100, k at level 200) : result_scope.
Notation "'try_!' r ; k" := (result_bind r (fun _ => k))
  (at level 10, r at level 100, k at level 200) : result_scope.

(** A computation that may throw and that appends to a log of type [L]
    (handler invocations, callback invocations, system calls). *)
Definition M (L A : Type) : Type := list L -> result A * list L.

Definition ret {L A} (a : A) : M L A := fun log => (Ok a, log).
Definition raise {L A} (e : exn) : M L A := fun log => (Throw e, log).
Definition emit {L} (x : L) : M L unit := fun log => (Ok tt, log ++ [x]).
Definition lift {L A} (r : result A) : M L A := fun log => (r, log).

Definition bind {L A B} (c : M L A) (k : A -> M L B) : M L B :=
  fun log =>
    match c log with
    | (Ok a, log') => k a log'
    | (Throw e, log') => (Throw e, log')
    end.

(** [try { c } catch (const std::exception &e) { h (e.what()) }] *)
Definition try_catch_std {L A} (c : M L A) (h : string -> M L A) : M L A :=
  fun log =>
    match c log with
    | (Ok a, log') => (Ok a, log')
    | (Throw e, log') =>
        match std_what e with
        | Some w => h w log'
        | None => (Throw e, log')
        end
    end.

(** [try { c } catch (...) { }] *)
Definition try_catch_all {L} (c : M L unit) : M L unit :=
  fun log =>
    match c log with
    | (Ok a, log') => (Ok a, log')
    | (Throw _, log') => (Ok tt, log')
    end.

Declare Scope M_scope.
Delimit Scope M_scope with M.
Notation "'do!' x <- c ; k" := (bind c (fun x => k))
  (at level 10, x name, c at level 100, k at level 200) : M_scope.
Notation "'do_!' c ; k" := (bind c (fun _ => k))
  (at level 10, c at level 100, k at level 200) : M_scope.

(** ** JSON values *)

Module Json.

(** [json::value_t], as enumerated by [value_t_to_string] in schema.cpp. *)
Inductive value_t : Type :=
| null
| object
| array
| string_t
| boolean
| number_integer
| number_unsigned
| number_float
| binary
| discarded.

#[global] Instance value_t_eq_dec : EqDecision value_t.
Proof. solve_decision. Defined.

(** A JSON value.  Objects are finite maps from keys to values; a
    [number_float] carries a binary64 value. *)
Inductive json : Type :=
| JNull
| JObject (fields : gmap string json)
| JArray (items : list json)
| JString (s : string)
| JBool (b : bool)
| JInt (z : Z)
| JUnsigned (n : N)
| JFloat (f : spec_float)
| JBinary (bytes : list Z)
| JDiscarded.

Definition type (j : json) : value_t :=
  match j with
  | JNull => null
  | JObject _ => object
  | JArray _ => array
  | JString _ => string_t
  | JBool _ => boolean
  | JInt _ => number_integer
  | JUnsigned _ => number_unsigned
  | JFloat _ => number_float
  | JBinary _ => binary
  | JDiscarded => discarded
  end.

Definition is_object (j : json) : bool :=
  match j with
  | JObject _ => true
  | _ => false
  end.

(** [j.contains(key)]: false on anything that is not an object. *)
Definition contains (j : json) (key : string) : bool :=
  match j with
  | JObject fields => bool_decide (is_Some (fields !! key))
  | _ => false
  end.

(** [j.type_name()], used in the library's own error texts. *)
Definition type_name (j : json) : string :=
  match j with
  | JNull => "null"
  | JObject _ => "object"
  | JArray _ => "array"
  | JString _ => "string"
  | JBool _ => "boolean"
  | JBinary _ => "binary"
  | JDiscarded => "discarded"
  | JInt _ | JUnsigned _ | JFloat _ => "number"
  end.

(** [j.at(key)] on a const value. *)
Definition at_ (j : json) (key : string) : result json :=
  match j with
  | JObject fields =>
      match fields !! key with
      | Some v => Ok v
      | None =>
          Throw (json_exception
                   ("[json.exception.out_of_range.403] key '" +:+ key +:+
                    "' not found"))
      end
  | _ =>
      Throw (json_exception
               ("[json.exception.type_error.304] cannot use at() with " +:+
                type_name j))
  end.

(** [j.value(key, default)] with a string default: the member converted to
    a string when the key is present, the default when it is absent; a
    [type_error] when [j] is not an object or the member is not a string. *)
Definition value_string (j : json) (key default : string) : result string :=
  match j with
  | JObject fields =>
      match fields !! key with
      | Some (JString s) => Ok s
      | Some v =>
          Throw (json_exception
                   ("[json.exception.type_error.302] type must be string, but is "
                    +:+ type_name v))
      | None => Ok default
      end
  | _ =>
      Throw (json_exception
               ("[json.exception.type_error.306] cannot use value() with " +:+
                type_name j))
  end.

(** [j.value(key, default)] with a boolean default. *)
Definition value_bool (j : json) (key : string) (default : bool) : result bool :=
  match j with
  | JObject fields =>
      match fields !! key with
      | Some (JBool b) => Ok b
      | Some v =>
          Throw (json_exception
                   ("[json.exception.type_error.302] type must be boolean, but is "
                    +:+ type_name v))
      | None => Ok default
      end
  | _ =>
      Throw (json_exception
               ("[json.exception.type_error.306] cannot use value() with " +:+
                type_name j))
  end.

(** [j[key] = v] on a non-const value: a null value first becomes an empty
    object; any other non-object raises a [type_error]. *)
Definition set_field (j : json) (key : string) (v : json) : result json :=
  match j with
  | JObject fields => Ok (JObject (<[key := v]> fields))
  | JNull => Ok (JObject (<[key := v]> ∅))
  | _ =>
      Throw (json_exception
               ("[json.exception.type_error.305] cannot use operator[] with a string argument with "
                +:+ type_name j))
  end.

End Json.
Import Json.

(** ** schema.cpp *)

Module Schema.

(** The variant held by a [ParamSchema]: one required type, a list of
    acceptable types, or a nested map from field names to schemas.  A schema
    map is represented by the sequence of its entries in iteration order. *)
Inductive ParamSchema : Type :=
| SchemaType (t : value_t)
| SchemaTypes (ts : list value_t)
| SchemaNested (m : list (string * ParamSchema)).

Definition ParamSchemaMap : Type := list (string * ParamSchema).

(** [inline ParamSchema types(std::initializer_list<json::value_t>)] *)
Definition types (allowed : list value_t) : ParamSchema := SchemaTypes allowed.

Definition value_t_to_string (t : value_t) : string :=
  match t with
  | null => "null"
  | object => "object"
  | array => "array"
  | string_t => "string"
  | boolean => "boolean"
  | number_integer => "number_integer"
  | number_unsigned => "number_unsigned"
  | number_float => "number_float"
  | binary => "binary"
  | discarded => "discarded"
  end.

(** [path.empty() ? key : path + "." + key] *)
Definition full_path_of (path key : string) : string :=
  match path with
  | EmptyString => key
  | _ => path +:+ "." +:+ key
  end.

(** The text built by the loop over [expected_types]. *)
Fixpoint expected_list (ts : list value_t) : string :=
  match ts with
  | [] => EmptyString
  | [t] => value_t_to_string t
  | t :: rest => value_t_to_string t +:+ ", " +:+ expected_list rest
  end.

(** The loop [for (const auto &[key, schema_val] : schema)] of
    [assert_parameters_impl], with the check of one entry abstracted. *)
Definition for_each_entry
    (check : ParamSchema -> json -> string -> result unit)
    (obj : json) (path : string) : ParamSchemaMap -> result unit :=
  fix loop (schema : ParamSchemaMap) : result unit :=
    match schema with
    | [] => Ok tt
    | (key, schema_val) :: rest =>
        let full_path := full_path_of path key in
        if negb (contains obj key)
        then Throw (runtime_error ("Missing key: " +:+ full_path))
        else
          (try! json_val <- at_ obj key;
           try_! check schema_val json_val full_path;
           loop rest)%result
    end.

(** The body of the loop for one entry whose key is present. *)
Fixpoint check_entry (schema_val : ParamSchema) (json_val : json)
    (full_path : string) {struct schema_val} : result unit :=
  match schema_val with
  | SchemaType expected_type =>
      if bool_decide (type json_val ≠ expected_type)
      then Throw (runtime_error
                    ("Wrong type for key '" +:+ full_path +:+ "' (expected " +:+
                     value_t_to_string expected_type +:+ ", got " +:+
                     value_t_to_string (type json_val) +:+ ")"))
      else Ok tt
  | SchemaTypes expected_types =>
      let match_ :=
        existsb (fun t => bool_decide (type json_val = t)) expected_types in
      if negb match_
      then Throw (runtime_error
                    ("Wrong type for key '" +:+ full_path +:+
                     "' (expected one of [" +:+ expected_list expected_types +:+
                     "], got " +:+ value_t_to_string (type json_val) +:+ ")"))
      else Ok tt
  | SchemaNested nested =>
      if negb (is_object json_val)
      then Throw (runtime_error ("Expected object at key: " +:+ full_path))
      else for_each_entry check_entry json_val full_path nested
  end.

Definition assert_parameters_impl (obj : json) (schema : ParamSchemaMap)
    (path : string) : result unit :=
  for_each_entry check_entry obj path schema.

Definition assert_parameters (obj : json) (schema : ParamSchemaMap)
    : result unit :=
  if negb (is_object obj)
  then Throw (runtime_error "Top-level JSON must be an object.")
  else assert_parameters_impl obj schema EmptyString.

End Schema.

(** ** threadpool.hpp, threadpool.cpp *)

Module ThreadPool.

(** A task is identified by a number; what its body does is opaque to the
    pool (the wrapper of [wrap_task] swallows every exception). *)
Definition Task : Type := nat.

(** Where a worker thread is in [ThreadPool::worker]. *)
Inductive Worker : Type :=
| AtWait              (* at [condition_.wait], inside the critical section *)
| Holding (t : Task)  (* left the critical section with a dequeued task *)
| Exited.             (* returned from [worker] *)

Definition is_exited (w : Worker) : bool :=
  match w with
  | Exited => true
  | _ => false
  end.

(** The members of a [ThreadPool], with [ran], the sequence of task bodies
    that have been invoked. *)
Record Pool : Type := mkPool {
  workers_ : list Worker;
  tasks_ : list Task;
  stop_ : bool;
  terminate_now_ : bool;
  ran : list Task
}.

Definition set_workers (ws : list Worker) (p : Pool) : Pool :=
  mkPool ws (tasks_ p) (stop_ p) (terminate_now_ p) (ran p).
Definition set_tasks (q : list Task) (p : Pool) : Pool :=
  mkPool (workers_ p) q (stop_ p) (terminate_now_ p) (ran p).
Definition set_stop (b : bool) (p : Pool) : Pool :=
  mkPool (workers_ p) (tasks_ p) b (terminate_now_ p) (ran p).
Definition set_terminate_now (b : bool) (p : Pool) : Pool :=
  mkPool (workers_ p) (tasks_ p) (stop_ p) b (ran p).
Definition set_ran (r : list Task) (p : Pool) : Pool :=
  mkPool (workers_ p) (tasks_ p) (stop_ p) (terminate_now_ p) r.

(** [ThreadPool::ThreadPool(thread_count)] *)
Definition new (thread_count : nat) : Pool :=
  mkPool (replicate thread_count AtWait) [] false false [].

Definition empty (q : list Task) : bool :=
  match q with
  | [] => true
  | _ => false
  end.

(** The predicate given to [condition_.wait]: the worker proceeds only when
    it holds. *)
Definition wait_predicate (p : Pool) : bool :=
  terminate_now_ p || (negb (empty (tasks_ p)) && negb (stop_ p)).

(** The critical section of one iteration of [worker]: [None] while the
    worker stays blocked in [condition_.wait]; otherwise the worker's next
    position and the queue it leaves behind. *)
Definition worker_critical (p : Pool) : option (Worker * list Task) :=
  if negb (wait_predicate p) then None
  else if terminate_now_ p then Some (Exited, tasks_ p)
  else if stop_ p && empty (tasks_ p) then Some (Exited, tasks_ p)
  else
    match tasks_ p with
    | t :: rest => Some (Holding t, rest)
    | [] => Some (AtWait, [])
    end.

(** The callable built by [wrap_task]: nothing when termination was
    requested, the task's body otherwise. *)
Definition run_wrapped (t : Task) (p : Pool) : Pool :=
  if terminate_now_ p then p else set_ran (ran p ++ [t]) p.

(** [ThreadPool::enqueue] *)
Definition enqueue (task : Task) (p : Pool) : result unit * Pool :=
  if stop_ p || terminate_now_ p
  then (Throw (runtime_error
                 "[ThreadPool] Cannot enqueue on stopped or terminated pool."),
        p)
  else (Ok tt, set_tasks (tasks_ p ++ [task]) p).

(** [ThreadPool::wait] first sets [stop_] and notifies; it returns once
    every worker has been joined. *)
Definition request_stop (p : Pool) : Pool := set_stop true p.

(** [ThreadPool::terminate] first sets [terminate_now_] and notifies. *)
Definition request_terminate (p : Pool) : Pool := set_terminate_now true p.

(** The join loop of [wait] and [terminate] has finished. *)
Definition joined (p : Pool) : bool := forallb is_exited (workers_ p).

(** One move of one worker thread. *)
Inductive worker_step : Pool -> Pool -> Prop :=
| step_critical p i w q :
    workers_ p !! i = Some AtWait ->
    worker_critical p = Some (w, q) ->
    worker_step p (set_workers (<[i := w]> (workers_ p)) (set_tasks q p))
| step_run p i t :
    workers_ p !! i = Some (Holding t) ->
    worker_step p
      (set_workers (<[i := AtWait]> (workers_ p)) (run_wrapped t p)).

(** One move of the whole system: a worker, or another thread calling
    [enqueue], or starting [wait] or [terminate]. *)
Inductive step : Pool -> Pool -> Prop :=
| step_worker p p' : worker_step p p' -> step p p'
| step_enqueue p task : step p (enqueue task p).2
| step_wait p : step p (request_stop p)
| step_terminate p : step p (request_terminate p).

End ThreadPool.

(** ** transport.cpp: replying to an identified peer *)

Module Transport.

(** The system calls issued by the server-side [send] functions. *)
Inductive syscall : Type :=
| sys_write (fd : Z) (data : string)
| sys_close (fd : Z)
| sys_sendto (sock : Z) (ip : string) (port : Z) (data : string).

Definition isspace (c : ascii) : bool :=
  let n := nat_of_ascii c in
  (n =? 32)%nat || ((9 <=? n)%nat && (n <=? 13)%nat).

Definition digit (c : ascii) : option Z :=
  let n := nat_of_ascii c in
  if (48 <=? n)%nat && (n <=? 57)%nat then Some (Z.of_nat (n - 48)) else None.

Fixpoint skip_spaces (s : string) : string :=
  match s with
  | String c rest => if isspace c then skip_spaces rest else s
  | EmptyString => s
  end.

(** The longest prefix of decimal digits, read as a number; [None] when
    there is no digit. *)
Fixpoint read_digits (s : string) (acc : option Z) : option Z :=
  match s with
  | String c rest =>
      match digit c with
      | Some d => read_digits rest (Some (10 * default 0 acc + d)%Z)
      | None => acc
      end
  | EmptyString => acc
  end.

Definition INT_MIN : Z := (- 2 ^ 31)%Z.
Definition INT_MAX : Z := (2 ^ 31 - 1)%Z.

(** [std::stoi(s)]: leading white space, an optional sign, decimal digits;
    what follows the digits is ignored.  [std::invalid_argument] when there
    is no digit, [std::out_of_range] when the number does not fit an
    [int]. *)
Definition stoi (s : string) : result Z :=
  let s1 := skip_spaces s in
  let '(negative, s2) :=
    match s1 with
    | String "-" rest => (true, rest)
    | String "+" rest => (false, rest)
    | _ => (false, s1)
    end in
  match read_digits s2 None with
  | None => Throw (invalid_argument "stoi")
  | Some n =>
      let v := if negative then (- n)%Z else n in
      if (INT_MIN <=? v)%Z && (v <=? INT_MAX)%Z then Ok v
      else Throw (out_of_range "stoi")
  end.

(** [htons(port)]: the port as a 16-bit quantity. *)
Definition htons (port : Z) : Z := (port mod 65536)%Z.

(** [s.substr(pos)] for [pos <= s.size()] *)
Definition substr_from (pos : nat) (s : string) : string :=
  substring pos (String.length s - pos) s.

Record UnixSocketTransport : Type := {
  unix_socket_path_ : string;
  unix_server_fd_ : Z
}.

Record UdpTransport : Type := {
  udp_port_ : Z;
  udp_ip_ : string;
  sock_ : Z
}.

Record TcpTransport : Type := {
  tcp_port_ : Z;
  tcp_ip_ : string;
  tcp_server_fd_ : Z
}.

(** The part of the abstract class [Transport] used to answer a request:
    [send(data, client_id)]. *)
Class Transport (T : Type) : Type :=
  send : T -> string -> string -> M syscall unit.

(** [UnixSocketTransport::send(data, client_id)] *)
#[global] Instance UnixSocketTransport_send : Transport UnixSocketTransport :=
  fun _ data client_id =>
    (do! client_fd <- lift (stoi client_id);
     do_! emit (sys_write client_fd data);
     emit (sys_close client_fd))%M.

(** [UdpTransport::send(data, client_id)] *)
#[global] Instance UdpTransport_send : Transport UdpTransport :=
  fun self data client_id =>
    match index 0 ":" client_id with
    | None => ret tt
    | Some delim =>
        let ip := substring 0 delim client_id in
        (do! port <- lift (stoi (substr_from (delim + 1) client_id));
         emit (sys_sendto (sock_ self) ip (htons port) data))%M
    end.

(** [TcpTransport::send(data, client_id)] *)
#[global] Instance TcpTransport_send : Transport TcpTransport :=
  fun _ data client_id =>
    (do! client_fd <- lift (stoi client_id);
     do_! emit (sys_write client_fd data);
     emit (sys_close client_fd))%M.

End Transport.

(** ** server.cpp *)

Module Server.

(** [json okay(const json &result)] *)
Definition okay (result_ : json) : result json :=
  let res := result_ in
  set_field res "_success" (JBool true).

(** [json error(const json &result, const std::string &message)] *)
Definition error (result_ : json) (message : string) : result json :=
  let res := result_ in
  (try! res <- set_field res "_success" (JBool false);
   set_field res "_msg" (JString message))%result.

(** [using Handler = std::function<json(const json &)>] *)
Definition Handler : Type := json -> result json.

(** [Server::add_handler] *)
Definition add_handler (command : string) (handler : Handler)
    (handlers_ : gmap string Handler) : gmap string Handler :=
  <[command := handler]> handlers_.

(** What the per-message task does that is visible from outside. *)
Inductive event : Type :=
| Invoked (command : string) (request : json)
| Send (data : string) (client_id : string).

Section Serve.

(** [json::parse] and [json::dump] of the JSON library. *)
Variable parse : string -> result json.
Variable dump : json -> result string.
(** [transport_->send(data, client_id)] *)
Variable transport_send : string -> string -> result unit.

Variable handlers_ : gmap string Handler.

(** The first [try] block of the task in [Server::serve].  The logging
    calls are left out, the evaluation of their arguments is not. *)
Definition dispatch (data : string) : M event json :=
  (do! request <- lift (parse data);
   do! command <- lift (value_string request "_cmd" "<no _cmd>");
   do! response <-
     match handlers_ !! command with
     | Some handler =>
         do_! emit (Invoked command request);
         lift (handler request)
     | None => lift (error JNull ("Unknown command: " +:+ command))
     end;
   do! success <- lift (value_bool response "_success" false);
   do_! (if success then ret tt
         else
           do! msg <- lift (value_string response "_msg" "No error message");
           ret tt);
   ret response)%M.

(** The first [try] block with its [catch]: the response of the task. *)
Definition respond (data : string) : M event json :=
  try_catch_std (dispatch data)
    (fun what =>
       lift (error JNull ("Invalid JSON or internal error: " +:+ what))).

(** The task built by [Server::serve] for one received message. *)
Definition task (data client_id : string) : M event unit :=
  (do! response <- respond data;
   try_catch_std
     (do! text <- lift (dump response);
      do_! emit (Send text client_id);
      lift (transport_send text client_id))
     (fun _ => ret tt))%M.

End Serve.

End Server.

(** ** client.cpp *)

Module Client.

(** What a client call does that is visible from outside. *)
Inductive call : Type :=
| TransportSend (data : string)
| CallbackCall (arg : json).

(** The two JSON objects live in [Client::send_request]: the caller's
    object, passed by const reference, and the local copy. *)
Record frame : Type := mkFrame {
  request : json;
  full_request : json
}.

(** [json full_request = request;] *)
Definition copy_request (request : json) : frame :=
  mkFrame request request.

(** [full_request["_cmd"] = endpoint;] *)
Definition assign_cmd (endpoint : string) (f : frame) : result frame :=
  (try! j <- set_field (full_request f) "_cmd" (JString endpoint);
   Ok (mkFrame (request f) j))%result.

Section Requests.

Variable parse : string -> result json.
Variable dump : json -> result string.
(** [transport_->send(data)]: one round trip in the client role. *)
Variable transport_send : string -> result string.

(** [Client::send_request] *)
Definition send_request (endpoint : string) (request : json)
    : M call json :=
  (do! f <- lift (assign_cmd endpoint (copy_request request));
   do! text <- lift (dump (full_request f));
   do_! emit (TransportSend text);
   do! response_str <- lift (transport_send text);
   do! response <- lift (parse response_str);
   do! success <- lift (value_bool response "_success" false);
   if negb success
   then
     do! msg <- lift (value_string response "_msg" "Unknown server error.");
     raise (runtime_error ("Request failed: " +:+ msg))
   else ret response)%M.

(** [std::function<void(json)>] *)
Definition Callback : Type := json -> result unit.

Definition invoke (callback : Callback) (arg : json) : M call unit :=
  (do_! emit (CallbackCall arg);
   lift (callback arg))%M.

(** [json{{"_success", false}, {"_msg", e.what()}}] *)
Definition failure_envelope (what : string) : json :=
  JObject (<["_msg" := JString what]> (<["_success" := JBool false]> ∅)).

(** The body of the thread started by [Client::send_request_bg].  A
    [Throw] result is an exception leaving the thread function. *)
Definition send_request_bg (endpoint : string) (request : json)
    (callback : Callback) : M call unit :=
  try_catch_std
    (do! response <- send_request endpoint request;
     invoke callback response)%M
    (fun what => invoke callback (failure_envelope what)).

End Requests.

End Client.

(** ** Notions used to state the properties *)

(** [adds_keys j j']: [j'] is [j] with further keys added to objects, at any
    depth; values that are not objects or arrays are untouched. *)
Inductive adds_keys : json -> json -> Prop :=
| adds_keys_refl j : adds_keys j j
| adds_keys_object fields fields' :
    (forall key v,
        fields !! key = Some v ->
        exists v', fields' !! key = Some v' /\ adds_keys v v') ->
    adds_keys (JObject fields) (JObject fields')
| adds_keys_array items items' :
    Forall2 adds_keys items items' ->
    adds_keys (JArray items) (JArray items').

(** The JSON values of the validation examples. *)
Definition five_point_two : spec_float :=
  S754_finite false 5854679515581645 (-50).

Definition schema_n : Schema.ParamSchemaMap :=
  [("n", Schema.types [number_integer; number_float])].

Definition schema_meta : Schema.ParamSchemaMap :=
  [("meta", Schema.SchemaNested [("retries", Schema.SchemaType number_integer)])].

(** A pool on which [wait] or [terminate] has been requested. *)
Definition closed (p : ThreadPool.Pool) : bool :=
  ThreadPool.stop_ p || ThreadPool.terminate_now_ p.

(** A one-worker pool whose worker is running task 1 while task 2 is
    queued: the state reached by [ThreadPool pool(1); pool.enqueue(task1);
    pool.enqueue(task2);] once the worker has picked up the first task. *)
Definition busy_pool : ThreadPool.Pool :=
  ThreadPool.mkPool [ThreadPool.Holding 1] [2] false false [].

(** The failure envelope [{"_success": false, "_msg": msg}]. *)
Definition failure_response (msg : string) : json :=
  JObject (<["_msg" := JString msg]> (<["_success" := JBool false]> ∅)).

(** A parser that knows one text, the empty object. *)
Definition parse_empty_object (data : string) : result json :=
  if String.eqb data "{}" then Ok (JObject ∅)
  else Throw (json_exception "parse error").


(** The two texts exchanged when a client calls the unregistered command
    ["nope"] with an empty payload, and a codec that knows just these two:
    [{"_cmd":"nope"}] and
    [{"_msg":"Unknown command: nope","_success":false}]. *)
Definition quoted (s : string) : string :=
  String (ascii_of_nat 34) s +:+ String (ascii_of_nat 34) EmptyString.

Definition nope_request_text : string :=
  "{" +:+ quoted "_cmd" +:+ ":" +:+ quoted "nope" +:+ "}".

Definition nope_reply_text : string :=
  "{" +:+ quoted "_msg" +:+ ":" +:+ quoted "Unknown command: nope" +:+ "," +:+
  quoted "_success" +:+ ":false}".

Definition nope_parse (data : string) : result json :=
  if String.eqb data nope_request_text
  then Ok (JObject (<["_cmd" := JString "nope"]> ∅))
  else if String.eqb data nope_reply_text
       then Ok (failure_response "Unknown command: nope")
       else Throw (json_exception "parse error").

Definition nope_dump (j : json) : result string :=
  if contains j "_cmd" then Ok nope_request_text
  else if contains j "_msg" then Ok nope_reply_text
       else Throw (json_exception "not a text of this exchange").

(** A callback that always throws. *)
Definition throwing_callback : json -> result unit :=
  fun _ => Throw (runtime_error "callback failed").

(** ** transport.cpp: binding, receiving, the client role, closing *)

Module TransportIO.
Import Transport.

(** [std::to_string(int)]: the decimal digits, after a minus sign for a
    negative number.  An [int] has at most ten digits. *)
Definition digit_char (d : Z) : ascii := ascii_of_nat (48 + Z.to_nat d).

Fixpoint to_digits (fuel : nat) (n : Z) (acc : string) : string :=
  match fuel with
  | O => acc
  | S fuel' =>
      let acc' := String (digit_char (n mod 10)) acc in
      if (n <? 10)%Z then acc' else to_digits fuel' (n / 10) acc'
  end.

Definition to_string (value : Z) : string :=
  if (value <? 0)%Z then String "-" (to_digits 10 (- value) EmptyString)
  else to_digits 10 value EmptyString.

(** [inet_ntoa]: the four octets of an IPv4 address in dotted notation. *)
Definition inet_ntoa (a b c d : Z) : string :=
  to_string a +:+ "." +:+ to_string b +:+ "." +:+ to_string c +:+ "." +:+
  to_string d.

Inductive family : Type := AF_UNIX | AF_INET.
Inductive socktype : Type := SOCK_STREAM | SOCK_DGRAM.

(** The host part of a [sockaddr_in] as the code sets it. *)
Inductive host : Type :=
| INADDR_ANY
| inet_addr (ip : string).

Inductive sockaddr : Type :=
| sockaddr_un (sun_path : string)
| sockaddr_in (sin_addr : host) (sin_port : Z).

(** The system calls of these functions, with their arguments. *)
Inductive oscall : Type :=
| os_socket (f : family) (t : socktype)
| os_unlink (path : string)
| os_bind (fd : Z) (addr : sockaddr)
| os_listen (fd : Z) (backlog : Z)
| os_accept (fd : Z)
| os_connect (fd : Z) (addr : sockaddr)
| os_read (fd : Z) (count : nat)
| os_write (fd : Z) (data : string)
| os_recvfrom (fd : Z) (count : nat)
| os_sendto (fd : Z) (data : string) (addr : sockaddr)
| os_close (fd : Z).

(** What [read] hands back: a failure, or the bytes that were waiting on
    the descriptor (of which at most [count] are taken). *)
Inductive incoming : Type :=
| read_failed
| read_bytes (bytes : string).

(** What [recvfrom] hands back on the server socket: a failure, or a
    datagram with the octets and the port (in host order) of its source. *)
Inductive datagram : Type :=
| recvfrom_failed
| recvfrom_bytes (bytes : string) (a b c d : Z) (port : Z).

(** [char buffer[2048]] is read with [sizeof(buffer) - 1]. *)
Definition BUFFER_SIZE : nat := 2048.

(** The value [len] returned by the call and [std::string(buffer, len)]. *)
Definition read_len (count : nat) (r : incoming) : Z :=
  match r with
  | read_failed => (-1)%Z
  | read_bytes bytes => Z.of_nat (Nat.min count (String.length bytes))
  end.

Definition read_string (count : nat) (r : incoming) : string :=
  match r with
  | read_failed => EmptyString
  | read_bytes bytes => substring 0 (Nat.min count (String.length bytes)) bytes
  end.

(** [sizeof(addr.sun_path)] of [sockaddr_un] (Linux). *)
Definition SUN_PATH_SIZE : nat := 108.

(** [strncpy(addr.sun_path, path, sizeof(addr.sun_path) - 1)] into a
    zeroed address. *)
Definition sun_path_of (path : string) : string :=
  substring 0 (SUN_PATH_SIZE - 1) path.

Definition set_unix_fd (fd : Z) (self : UnixSocketTransport)
    : UnixSocketTransport :=
  Build_UnixSocketTransport (unix_socket_path_ self) fd.
Definition set_sock (fd : Z) (self : UdpTransport) : UdpTransport :=
  Build_UdpTransport (udp_port_ self) (udp_ip_ self) fd.
Definition set_tcp_fd (fd : Z) (self : TcpTransport) : TcpTransport :=
  Build_TcpTransport (tcp_port_ self) (tcp_ip_ self) fd.

(** The constructors. *)
Definition UnixSocketTransport_new (socket_path : string)
    : UnixSocketTransport :=
  Build_UnixSocketTransport socket_path (-1).
Definition UdpTransport_new (ip : string) (port : Z) : UdpTransport :=
  Build_UdpTransport port ip (-1).
Definition TcpTransport_new (ip : string) (port : Z) : TcpTransport :=
  Build_TcpTransport port ip (-1).

(** *** bind

    Each function takes what the system calls return and gives the object
    afterwards, the outcome and the calls made. *)

Definition UnixSocketTransport_bind (socket_r bind_r listen_r : Z)
    (self : UnixSocketTransport)
    : UnixSocketTransport * result unit * list oscall :=
  let self' := set_unix_fd socket_r self in
  let calls := [os_socket AF_UNIX SOCK_STREAM] in
  if (socket_r =? -1)%Z
  then (self', Throw (runtime_error "Failed to create UNIX socket"), calls)
  else
    let calls :=
      calls ++ [os_unlink (unix_socket_path_ self);
                os_bind socket_r
                  (sockaddr_un (sun_path_of (unix_socket_path_ self)))] in
    if (bind_r =? -1)%Z
    then (self', Throw (runtime_error "Failed to bind UNIX socket"), calls)
    else
      let calls := calls ++ [os_listen socket_r 5] in
      if (listen_r =? -1)%Z
      then (self', Throw (runtime_error "Failed to listen on UNIX socket"),
            calls)
      else (self', Ok tt, calls).

Definition UdpTransport_bind (socket_r bind_r : Z) (self : UdpTransport)
    : UdpTransport * result unit * list oscall :=
  let self' := set_sock socket_r self in
  let calls := [os_socket AF_INET SOCK_DGRAM] in
  if (socket_r =? -1)%Z
  then (self', Throw (runtime_error "Failed to create UDP socket"), calls)
  else
    let calls :=
      calls ++ [os_bind socket_r
                  (sockaddr_in INADDR_ANY (htons (udp_port_ self)))] in
    if (bind_r =? -1)%Z
    then (self', Throw (runtime_error "Failed to bind UDP socket"), calls)
    else (self', Ok tt, calls).

Definition TcpTransport_bind (socket_r bind_r listen_r : Z)
    (self : TcpTransport) : TcpTransport * result unit * list oscall :=
  let self' := set_tcp_fd socket_r self in
  let calls := [os_socket AF_INET SOCK_STREAM] in
  if (socket_r =? -1)%Z
  then (self', Throw (runtime_error "Failed to create TCP socket"), calls)
  else
    let calls :=
      calls ++ [os_bind socket_r
                  (sockaddr_in INADDR_ANY (htons (tcp_port_ self)))] in
    if (bind_r =? -1)%Z
    then (self', Throw (runtime_error "Failed to bind TCP socket"), calls)
    else
      let calls := calls ++ [os_listen socket_r 5] in
      if (listen_r =? -1)%Z
      then (self', Throw (runtime_error "Failed to listen on TCP socket"),
            calls)
      else (self', Ok tt, calls).

(** *** receive: the message and the identity of its sender *)

(** The part shared by the two stream backends, which differ in their
    error texts. *)
Definition stream_receive (accept_failed read_failed_msg : string)
    (server_fd : Z) (accept_r : Z) (read_r : incoming)
    : M oscall (string * string) :=
  (do_! emit (os_accept server_fd);
   let client_fd := accept_r in
   if (client_fd =? -1)%Z then raise (runtime_error accept_failed)
   else
     do_! emit (os_read client_fd (BUFFER_SIZE - 1));
     let len := read_len (BUFFER_SIZE - 1) read_r in
     if (len <=? 0)%Z
     then
       do_! emit (os_close client_fd);
       raise (runtime_error read_failed_msg)
     else
       let client_id := to_string client_fd in
       ret (read_string (BUFFER_SIZE - 1) read_r, client_id))%M.

Definition UnixSocketTransport_receive (self : UnixSocketTransport)
    : Z -> incoming -> M oscall (string * string) :=
  stream_receive "Failed to accept connection" "Failed to read request"
    (unix_server_fd_ self).

Definition TcpTransport_receive (self : TcpTransport)
    : Z -> incoming -> M oscall (string * string) :=
  stream_receive "Failed to accept TCP connection"
    "Failed to read from TCP client" (tcp_server_fd_ self).

Definition UdpTransport_receive (self : UdpTransport) (recvfrom_r : datagram)
    : M oscall (string * string) :=
  (do_! emit (os_recvfrom (sock_ self) (BUFFER_SIZE - 1));
   match recvfrom_r with
   | recvfrom_failed =>
       raise (runtime_error "Failed to receive from UDP socket")
   | recvfrom_bytes bytes a b c d port =>
       let len := read_len (BUFFER_SIZE - 1) (read_bytes bytes) in
       if (len <=? 0)%Z
       then raise (runtime_error "Failed to receive from UDP socket")
       else
         let client_id := inet_ntoa a b c d +:+ ":" +:+ to_string port in
         ret (read_string (BUFFER_SIZE - 1) (read_bytes bytes), client_id)
   end)%M.

(** *** send(data) in the client role: one round trip *)

Definition stream_send_client (connect_failed write_failed read_failed_msg
                                 : string)
    (addr : sockaddr) (client_fd : Z) (connect_r write_r : Z)
    (read_r : incoming) (data : string) : M oscall string :=
  (do_! emit (os_connect client_fd addr);
   if (connect_r =? -1)%Z
   then
     do_! emit (os_close client_fd);
     raise (runtime_error connect_failed)
   else
     do_! emit (os_write client_fd data);
     if (write_r =? -1)%Z
     then
       do_! emit (os_close client_fd);
       raise (runtime_error write_failed)
     else
       do_! emit (os_read client_fd (BUFFER_SIZE - 1));
       let len := read_len (BUFFER_SIZE - 1) read_r in
       if (len <=? 0)%Z
       then
         do_! emit (os_close client_fd);
         raise (runtime_error read_failed_msg)
       else
         do_! emit (os_close client_fd);
         ret (read_string (BUFFER_SIZE - 1) read_r))%M.

Definition UnixSocketTransport_send_client (self : UnixSocketTransport)
    (socket_r connect_r write_r : Z) (read_r : incoming) (data : string)
    : M oscall string :=
  (do_! emit (os_socket AF_UNIX SOCK_STREAM);
   if (socket_r =? -1)%Z
   then raise (runtime_error "Failed to create UNIX client socket")
   else
     stream_send_client "Failed to connect to UNIX socket"
       "Failed to send data to UNIX socket"
       "Failed to read response from UNIX socket"
       (sockaddr_un (sun_path_of (unix_socket_path_ self)))
       socket_r connect_r write_r read_r data)%M.

Definition TcpTransport_send_client (self : TcpTransport)
    (socket_r connect_r write_r : Z) (read_r : incoming) (data : string)
    : M oscall string :=
  (do_! emit (os_socket AF_INET SOCK_STREAM);
   if (socket_r =? -1)%Z
   then raise (runtime_error "Failed to create TCP client socket")
   else
     stream_send_client "Failed to connect to TCP server"
       "Failed to write to TCP server" "Failed to read from TCP server"
       (sockaddr_in (inet_addr (tcp_ip_ self)) (htons (tcp_port_ self)))
       socket_r connect_r write_r read_r data)%M.

Definition UdpTransport_send_client (self : UdpTransport)
    (socket_r sendto_r : Z) (recvfrom_r : incoming) (data : string)
    : M oscall string :=
  (do_! emit (os_socket AF_INET SOCK_DGRAM);
   let client_fd := socket_r in
   if (client_fd =? -1)%Z
   then raise (runtime_error "Failed to create UDP client socket")
   else
     do_! emit (os_sendto client_fd data
                  (sockaddr_in (inet_addr (udp_ip_ self))
                     (htons (udp_port_ self))));
     if (sendto_r =? -1)%Z
     then
       do_! emit (os_close client_fd);
       raise (runtime_error "Failed to send UDP packet")
     else
       do_! emit (os_recvfrom client_fd (BUFFER_SIZE - 1));
       let len := read_len (BUFFER_SIZE - 1) recvfrom_r in
       if (len <=? 0)%Z
       then
         do_! emit (os_close client_fd);
         raise (runtime_error "Failed to receive UDP response")
       else
         do_! emit (os_close client_fd);
         ret (read_string (BUFFER_SIZE - 1) recvfrom_r))%M.

(** *** close *)

Definition UnixSocketTransport_close (self : UnixSocketTransport)
    : UnixSocketTransport * list oscall :=
  if negb (unix_server_fd_ self =? -1)%Z
  then (set_unix_fd (-1) self,
        [os_close (unix_server_fd_ self);
         os_unlink (unix_socket_path_ self)])
  else (self, []).

Definition UdpTransport_close (self : UdpTransport)
    : UdpTransport * list oscall :=
  if negb (sock_ self =? -1)%Z
  then (set_sock (-1) self, [os_close (sock_ self)])
  else (self, []).

Definition TcpTransport_close (self : TcpTransport)
    : TcpTransport * list oscall :=
  if negb (tcp_server_fd_ self =? -1)%Z
  then (set_tcp_fd (-1) self, [os_close (tcp_server_fd_ self)])
  else (self, []).

End TransportIO.

(** ** server.cpp: the serving loop without a pool *)

Module ServerLoop.
Import Server.

Section Serve.

Variable parse : string -> result json.
Variable dump : json -> result string.
Variable transport_send : string -> string -> result unit.
Variable handlers_ : gmap string Handler.

(** [Server::serve] when [thread_pool_] is null.  The argument lists what
    the successive calls of [transport_->receive] give while [running_]
    holds: the message with the identity of its sender, or the exception
    thrown. *)
Fixpoint serve (received : list (result (string * string)))
    : M event unit :=
  match received with
  | [] => ret tt
  | r :: rest =>
      (do_! try_catch_std
              (do! message <- lift r;
               task parse dump transport_send handlers_ message.1 message.2)
              (fun _ => ret tt);
       serve rest)%M
  end.

End Serve.

End ServerLoop.

(** ** Further notions used to state properties *)

(** What a schema node asks of a value, stated without reference to the
    order in which the entries of a map are visited. *)
Inductive conforms : Schema.ParamSchema -> json -> Prop :=
| conforms_type t v :
    type v = t -> conforms (Schema.SchemaType t) v
| conforms_types ts v :
    type v ∈ ts -> conforms (Schema.SchemaTypes ts) v
| conforms_nested m fields :
    (forall key schema_val,
        (key, schema_val) ∈ m ->
        exists v, fields !! key = Some v /\ conforms schema_val v) ->
    conforms (Schema.SchemaNested m) (JObject fields).

(** The tasks the workers hold, dequeued and not yet run. *)
Definition held_task (w : ThreadPool.Worker) : option ThreadPool.Task :=
  match w with
  | ThreadPool.Holding t => Some t
  | _ => None
  end.

Definition held (p : ThreadPool.Pool) : list ThreadPool.Task :=
  omap held_task (ThreadPool.workers_ p).

(** Every task the pool knows of: run, held by a worker, or queued. *)
Definition accounted (p : ThreadPool.Pool) : list ThreadPool.Task :=
  ThreadPool.ran p ++ held p ++ ThreadPool.tasks_ p.

(** A result that is not an exception foreign to [std::exception]. *)
Definition std_only {A} (r : result A) : Prop :=
  match r with
  | Ok _ => True
  | Throw e => is_Some (std_what e)
  end.

(** The [Send] events of a log. *)
Definition is_send (e : Server.event) : bool :=
  match e with
  | Server.Send _ _ => true
  | _ => false
  end.

(** No [":"] in a text. *)
Fixpoint no_colon (s : string) : bool :=
  match s with
  | EmptyString => true
  | String c rest => negb (Ascii.eqb c ":") && no_colon rest
  end.

(** The calls that close descriptor [fd]. *)
Definition closes (fd : Z) (c : TransportIO.oscall) : bool :=
  match c with
  | TransportIO.os_close fd' => (fd' =? fd)%Z
  | _ => false
  end.

(** The value of the first character of a text when it is a decimal
    digit. *)
Definition leading_digit (s : string) : option Z :=
  match s with
  | String c _ => Transport.digit c
  | EmptyString => None
  end.

(** A small exchange used as an example: every request text stands for
    [{"_cmd":"ping"}], every reply text for [{"_success":true}]. *)
Definition ping_request : json := JObject {["_cmd" := JString "ping"]}.
Definition pong_reply : json := JObject {["_success" := JBool true]}.
Definition parse_ping (data : string) : result json := Ok ping_request.
Definition parse_pong (data : string) : result json := Ok pong_reply.
Definition dump_text (text : string) (j : json) : result string := Ok text.

(** ** threadpool.hpp: the callable built by [wrap_task], in its two halves *)

Module WrappedTask.
Import ThreadPool.

(** Where a worker thread is, telling apart the two halves of the callable
    built by [wrap_task]: the reading of [should_terminate()] and the call
    of the task's body, which happens after it and outside every lock. *)
Inductive Thread : Type :=
| Waiting              (* at [condition_.wait], inside the critical section *)
| Dequeued (t : Task)  (* holds the callable; [should_terminate()] not read yet *)
| Calling (t : Task)   (* [should_terminate()] was false; [func()] has not returned yet *)
| Returned.            (* returned from [worker] *)

Definition is_returned (w : Thread) : bool :=
  match w with
  | Returned => true
  | _ => false
  end.

(** The position a worker leaves the critical section with. *)
Definition of_worker (w : Worker) : Thread :=
  match w with
  | AtWait => Waiting
  | Holding t => Dequeued t
  | Exited => Returned
  end.

(** The threads of a pool and its members, with [returned], the sequence of
    task bodies whose call has returned (normally or by an exception, which
    the wrapper swallows). *)
Record Run : Type := mkRun {
  threads : list Thread;
  queue : list Task;
  stop : bool;
  terminate_now : bool;
  returned : list Task
}.

(** The members read inside the critical section of [worker]. *)
Definition members (s : Run) : Pool :=
  mkPool [] (queue s) (stop s) (terminate_now s) (returned s).

(** [ThreadPool::should_terminate] *)
Definition should_terminate (s : Run) : bool := terminate_now s.

(** [ThreadPool::terminate] first sets [terminate_now_] and notifies. *)
Definition request_terminate (s : Run) : Run :=
  mkRun (threads s) (queue s) (stop s) true (returned s).

(** One move of one worker thread: the critical section of [worker], the
    test at the head of the wrapped callable, or the return of the body
    it called. *)
Inductive thread_step : Run -> Run -> Prop :=
| thread_critical s i w q :
    threads s !! i = Some Waiting ->
    worker_critical (members s) = Some (w, q) ->
    thread_step s
      (mkRun (<[i := of_worker w]> (threads s)) q (stop s) (terminate_now s)
         (returned s))
| thread_test s i t :
    threads s !! i = Some (Dequeued t) ->
    thread_step s
      (mkRun (<[i := if should_terminate s then Waiting else Calling t]>
                (threads s))
         (queue s) (stop s) (terminate_now s) (returned s))
| thread_return s i t :
    threads s !! i = Some (Calling t) ->
    thread_step s
      (mkRun (<[i := Waiting]> (threads s)) (queue s) (stop s)
         (terminate_now s) (returned s ++ [t])).

End WrappedTask.

(** The bodies being called: past the test of [should_terminate()] and not
    yet returned. *)
Definition calling_task (w : WrappedTask.Thread) : option ThreadPool.Task :=
  match w with
  | WrappedTask.Calling t => Some t
  | _ => None
  end.

Definition calling (s : WrappedTask.Run) : list ThreadPool.Task :=
  omap calling_task (WrappedTask.threads s).

(** Three workers and a queued task at the moment [terminate] sets its
    flag: the first worker is inside the body of task 1, the second has
    dequeued task 2 and not yet read the flag, the third is waiting. *)
Definition interrupted_run : WrappedTask.Run :=
  WrappedTask.request_terminate
    (WrappedTask.mkRun
       [WrappedTask.Calling 1; WrappedTask.Dequeued 2; WrappedTask.Waiting]
       [3] false false []).

(** * Properties *)

(** ** Schema validation *)

Section SchemaFacts.
Import Schema.

(** Induction over schemas that reaches the entries of nested maps. *)
Lemma ParamSchema_nested_ind (P : ParamSchema -> Prop) :
  (forall t, P (SchemaType t)) ->
  (forall ts, P (SchemaTypes ts)) ->
  (forall m, Forall (fun entry => P entry.2) m -> P (SchemaNested m)) ->
  forall s, P s.
Proof.
  intros Htype Htypes Hnested.
  fix IH 1.
  intros [t | ts | m]; [apply Htype | apply Htypes |].
  apply Hnested.
  induction m as [| [key sv] m IHm]; constructor; [apply IH | exact IHm].
Qed.

Lemma adds_keys_type j j' : adds_keys j j' -> type j' = type j.
Proof. by destruct 1. Qed.

Lemma adds_keys_is_object j j' :
  adds_keys j j' -> is_object j' = is_object j.
Proof. by destruct 1. Qed.

Lemma adds_keys_lookup j j' key v :
  adds_keys j j' ->
  at_ j key = Ok v ->
  exists v', at_ j' key = Ok v' /\ adds_keys v v'.
Proof.
  destruct 1 as [j | fields fields' Hsub | items items' Hall]; intros Hat.
  - exists v. split; [done | constructor].
  - simpl in Hat. destruct (fields !! key) as [w |] eqn:Hw; [| done].
    injection Hat as ->.
    destruct (Hsub key v Hw) as (v' & Hv' & Hext).
    exists v'. simpl. by rewrite Hv'.
  - done.
Qed.

Lemma contains_at j key :
  contains j key = true -> exists v, at_ j key = Ok v.
Proof.
  destruct j; simpl; try done.
  intros H. apply bool_decide_eq_true in H as [v Hv].
  exists v. by rewrite Hv.
Qed.

Lemma at_contains j key v : at_ j key = Ok v -> contains j key = true.
Proof.
  destruct j; simpl; try done.
  destruct (fields !! key) eqn:E; [| done].
  intros _. apply bool_decide_eq_true. by eexists.
Qed.

(** The loop accepts the larger object when each entry's check does. *)
Lemma for_each_entry_adds_keys obj obj' path (schema : ParamSchemaMap) :
  Forall (fun entry =>
            forall json_val json_val' full_path,
              check_entry entry.2 json_val full_path = Ok tt ->
              adds_keys json_val json_val' ->
              check_entry entry.2 json_val' full_path = Ok tt) schema ->
  adds_keys obj obj' ->
  for_each_entry check_entry obj path schema = Ok tt ->
  for_each_entry check_entry obj' path schema = Ok tt.
Proof.
  intros Hall Hext.
  induction Hall as [| [key sv] rest Hhead _ IH]; [done |].
  simpl in *.
  destruct (contains obj key) eqn:Hc; simpl; [| done].
  destruct (contains_at _ _ Hc) as [v Hv].
  destruct (adds_keys_lookup _ _ _ _ Hext Hv) as (v' & Hv' & Hvv').
  rewrite (at_contains _ _ _ Hv'), Hv, Hv'. simpl.
  destruct (check_entry sv v (full_path_of path key)) as [[] |] eqn:Hchk;
    [| done].
  rewrite (Hhead v v' _ Hchk Hvv'). simpl. exact IH.
Qed.

Lemma check_entry_adds_keys schema_val :
  forall json_val json_val' full_path,
    check_entry schema_val json_val full_path = Ok tt ->
    adds_keys json_val json_val' ->
    check_entry schema_val json_val' full_path = Ok tt.
Proof.
  induction schema_val as [t | ts | m IH] using ParamSchema_nested_ind;
    intros json_val json_val' full_path Hok Hext; simpl in *.
  - by rewrite (adds_keys_type _ _ Hext).
  - by rewrite (adds_keys_type _ _ Hext).
  - rewrite (adds_keys_is_object _ _ Hext).
    destruct (is_object json_val); simpl in *; [| done].
    by apply (for_each_entry_adds_keys json_val).
Qed.

(** A value that passes the loop has every key of the schema, so a key
    that can still be added at that level is never one the schema names. *)
Lemma for_each_entry_contains obj path (schema : ParamSchemaMap) key :
  for_each_entry check_entry obj path schema = Ok tt ->
  key ∈ schema.*1 ->
  contains obj key = true.
Proof.
  induction schema as [| [k sv] rest IH]; simpl; intros Hok Hin.
  - by apply elem_of_nil in Hin.
  - destruct (contains obj k) eqn:Hc; simpl in Hok; [| done].
    apply elem_of_cons in Hin as [-> | Hin]; [done |].
    apply IH; [| done].
    destruct (at_ obj k); simpl in Hok; [| done].
    by destruct (check_entry sv a (full_path_of path k)).
Qed.

(** C5, as the code has it: with the integers held as [number_integer],
    the schema [{"n": [number_integer, number_float]}] accepts an integer
    and a float at ["n"] and rejects a string there with a type-mismatch
    error that names the path [n] and lists the allowed types; the nested
    schema [{"meta": {"retries": number_integer}}] rejects a non-object at
    ["meta"] and accepts [{"meta": {"retries": 3}}].  Types are compared
    exactly: with 5 and 3 held as [number_unsigned] the two objects that
    were accepted are rejected with a type-mismatch error, and
    [{"meta": 1}] is rejected either way. *)
Theorem validation_examples :
  assert_parameters (JObject {["n" := JInt 5]}) schema_n = Ok tt /\
  assert_parameters (JObject {["n" := JFloat five_point_two]}) schema_n
    = Ok tt /\
  assert_parameters (JObject {["n" := JString "5"]}) schema_n
    = Throw (runtime_error
               "Wrong type for key 'n' (expected one of [number_integer, number_float], got string)") /\
  assert_parameters (JObject {["meta" := JInt 1]}) schema_meta
    = Throw (runtime_error "Expected object at key: meta") /\
  assert_parameters
    (JObject {["meta" := JObject {["retries" := JInt 3]}]}) schema_meta
    = Ok tt /\
  assert_parameters (JObject {["n" := JUnsigned 5]}) schema_n
    = Throw (runtime_error
               "Wrong type for key 'n' (expected one of [number_integer, number_float], got number_unsigned)") /\
  assert_parameters
    (JObject {["meta" := JObject {["retries" := JUnsigned 3]}]}) schema_meta
    = Throw (runtime_error
               "Wrong type for key 'meta.retries' (expected number_integer, got number_unsigned)") /\
  assert_parameters (JObject {["meta" := JUnsigned 1]}) schema_meta
    = Throw (runtime_error "Expected object at key: meta").
Proof. repeat split; vm_compute; reflexivity. Qed.

(** C5 as stated fails: [{"n": 5}] and [{"meta": {"retries": 3}}] with
    their numbers held as [number_unsigned] are not accepted by the two
    schemas. *)
Lemma validation_unsigned_rejected :
  assert_parameters (JObject {["n" := JUnsigned 5]}) schema_n
  = Throw (runtime_error
             "Wrong type for key 'n' (expected one of [number_integer, number_float], got number_unsigned)") /\
  assert_parameters
    (JObject {["meta" := JObject {["retries" := JUnsigned 3]}]}) schema_meta
  = Throw (runtime_error
             "Wrong type for key 'meta.retries' (expected number_integer, got number_unsigned)").
Proof. split; vm_compute; reflexivity. Qed.

(** C10: validation looks only at the keys the schema names: an object
    that validates still validates after further keys have been added to
    it, at the top level or inside any nested object. *)
Theorem extra_keys_still_validate obj obj' (schema : ParamSchemaMap) :
  assert_parameters obj schema = Ok tt ->
  adds_keys obj obj' ->
  assert_parameters obj' schema = Ok tt.
Proof.
  unfold assert_parameters, assert_parameters_impl.
  intros Hok Hext.
  rewrite (adds_keys_is_object _ _ Hext).
  destruct (is_object obj); simpl in *; [| done].
  apply (for_each_entry_adds_keys obj); [| done | done].
  apply Forall_forall. intros entry _. apply check_entry_adds_keys.
Qed.

Lemma extra_keys_still_validate_witness :
  assert_parameters
    (JObject {["meta" := JObject {["retries" := JInt 3]}]}) schema_meta
    = Ok tt /\
  assert_parameters
    (JObject (<["extra" := JBool true]>
                {["meta" := JObject (<["more" := JNull]>
                                       {["retries" := JInt 3]})]}))
    schema_meta = Ok tt.
Proof.
  split; [vm_compute; reflexivity |].
  apply (extra_keys_still_validate
           (JObject {["meta" := JObject {["retries" := JInt 3]}]})).
  - vm_compute. reflexivity.
  - apply adds_keys_object. intros key v Hkey.
    apply lookup_singleton_Some in Hkey as [<- <-].
    eexists. split; [vm_compute; reflexivity |].
    apply adds_keys_object. intros key v Hkey.
    apply lookup_singleton_Some in Hkey as [<- <-].
    eexists. split; [vm_compute; reflexivity |].
    apply adds_keys_refl.
Defined.

End SchemaFacts.

(** ** The worker pool *)

Section ThreadPoolFacts.
Import ThreadPool.

(** Running a task touches nothing but the record of what ran. *)
Lemma run_wrapped_frame t p :
  workers_ (run_wrapped t p) = workers_ p /\
  tasks_ (run_wrapped t p) = tasks_ p /\
  stop_ (run_wrapped t p) = stop_ p /\
  terminate_now_ (run_wrapped t p) = terminate_now_ p.
Proof. unfold run_wrapped. by destruct (terminate_now_ p) eqn:E. Qed.

Lemma closed_step p p' : step p p' -> closed p = true -> closed p' = true.
Proof.
  unfold closed.
  destruct 1 as [p p' Hw | p task | p | p]; intros Hc.
  - destruct Hw as [p i w q Hi Hcrit | p i t Hi]; simpl; [done |].
    by destruct (run_wrapped_frame t p) as (_ & _ & -> & ->).
  - unfold enqueue. by rewrite Hc.
  - done.
  - simpl. by rewrite orb_true_r.
Qed.

Lemma worker_critical_queue p w q :
  worker_critical p = Some (w, q) -> q `suffix_of` tasks_ p.
Proof.
  unfold worker_critical.
  destruct (wait_predicate p); simpl; [| done].
  destruct (terminate_now_ p); [by intros [= _ <-] |].
  destruct (stop_ p && empty (tasks_ p)); [by intros [= _ <-] |].
  destruct (tasks_ p) as [| t rest]; intros [= _ <-]; [done |].
  by apply suffix_cons_r.
Qed.

Lemma closed_step_queue p p' :
  step p p' -> closed p = true -> tasks_ p' `suffix_of` tasks_ p.
Proof.
  unfold closed.
  destruct 1 as [p p' Hw | p task | p | p]; intros Hc; try done.
  - destruct Hw as [p i w q Hi Hcrit | p i t Hi]; simpl.
    + by eapply worker_critical_queue.
    + by destruct (run_wrapped_frame t p) as (_ & -> & _).
  - unfold enqueue. by rewrite Hc.
Qed.

Lemma closed_steps p p' :
  rtc step p p' ->
  closed p = true ->
  closed p' = true /\ tasks_ p' `suffix_of` tasks_ p.
Proof.
  induction 1 as [p | p p1 p' Hstep _ IH]; intros Hc; [done |].
  destruct (IH (closed_step _ _ Hstep Hc)) as [Hc' Hq].
  split; [done |].
  etrans; [exact Hq |]. by apply closed_step_queue.
Qed.

(** C2: once [wait] or [terminate] has been requested, every later
    [enqueue] throws the pool-closed error and leaves the pool, and so its
    queue, as it was; from then on the queue only loses tasks. *)
Theorem enqueue_after_shutdown p p' task :
  closed p = true ->
  rtc step p p' ->
  enqueue task p'
  = (Throw (runtime_error
              "[ThreadPool] Cannot enqueue on stopped or terminated pool."),
     p') /\
  tasks_ (enqueue task p').2 = tasks_ p' /\
  tasks_ p' `suffix_of` tasks_ p.
Proof.
  intros Hc Hsteps.
  destruct (closed_steps _ _ Hsteps Hc) as [Hc' Hq].
  unfold closed in Hc'. unfold enqueue. by rewrite Hc'.
Qed.

Lemma enqueue_after_shutdown_witness :
  enqueue 7 (request_terminate (request_stop (new 2)))
  = (Throw (runtime_error
              "[ThreadPool] Cannot enqueue on stopped or terminated pool."),
     request_terminate (request_stop (new 2))) /\
  tasks_ (enqueue 7 (request_terminate (request_stop (new 2)))).2
  = tasks_ (request_terminate (request_stop (new 2))) /\
  tasks_ (request_terminate (request_stop (new 2)))
    `suffix_of` tasks_ (request_stop (new 2)).
Proof.
  apply (enqueue_after_shutdown (request_stop (new 2))).
  - reflexivity.
  - apply rtc_once, step_terminate.
Defined.

(** An open pool accepts the task at the back of the queue. *)
Lemma enqueue_open p task :
  closed p = false ->
  enqueue task p = (Ok tt, set_tasks (tasks_ p ++ [task]) p).
Proof. unfold closed, enqueue. by intros ->. Qed.

(** After [wait] has set [stop_] (and nobody calls [terminate]) the
    predicate of [condition_.wait] is false whatever the queue holds. *)
Lemma stopped_predicate p :
  stop_ p = true -> terminate_now_ p = false -> wait_predicate p = false.
Proof.
  unfold wait_predicate. intros -> ->. simpl. apply andb_false_r.
Qed.

Lemma stopped_worker_step p p' :
  stop_ p = true -> terminate_now_ p = false ->
  worker_step p p' ->
  stop_ p' = true /\ terminate_now_ p' = false /\
  tasks_ p' = tasks_ p /\
  joined p' = false /\
  (forall t, Holding t ∈ workers_ p' -> Holding t ∈ workers_ p) /\
  (forall t, t ∈ ran p' -> t ∈ ran p \/ Holding t ∈ workers_ p).
Proof.
  intros Hs Ht Hstep.
  destruct Hstep as [p i w q Hi Hcrit | p i t Hi].
  - unfold worker_critical in Hcrit.
    by rewrite (stopped_predicate _ Hs Ht) in Hcrit.
  - unfold run_wrapped. rewrite Ht. simpl.
    repeat split; try done.
    + unfold joined. simpl. apply not_true_is_false. intros Hall.
      rewrite forallb_forall in Hall.
      specialize (Hall AtWait). simpl in Hall.
      assert (AtWait ∈ <[i := AtWait]> (workers_ p)) as Hin.
      { apply list_elem_of_lookup. exists i.
        apply list_lookup_insert_eq. by eapply lookup_lt_Some. }
      apply list_elem_of_In in Hin. by specialize (Hall Hin).
    + intros t' Hin.
      apply list_elem_of_lookup in Hin as [j Hj].
      destruct (decide (i = j)) as [-> | Hne].
      * rewrite list_lookup_insert_eq in Hj; [done |].
        by eapply lookup_lt_Some.
      * rewrite list_lookup_insert_ne in Hj; [| done].
        apply list_elem_of_lookup. by exists j.
    + intros t' Hin. apply elem_of_app in Hin as [Hin | Hin]; [by left |].
      apply list_elem_of_singleton in Hin as ->. right.
      apply list_elem_of_lookup. by exists i.
Qed.

(** What [wait] leads to: with [stop_] set no worker ever takes a task
    from the queue again and no worker ever returns, so the join loop of
    [wait] ends only if it had nothing to join; the only task bodies still
    to run are those a worker already held. *)
Lemma graceful_stop_never_drains p p' :
  stop_ p = true -> terminate_now_ p = false ->
  rtc worker_step p p' ->
  (stop_ p' = true /\ terminate_now_ p' = false) /\
  tasks_ p' = tasks_ p /\
  (joined p' = true -> p' = p) /\
  (forall t, Holding t ∈ workers_ p' -> Holding t ∈ workers_ p) /\
  (forall t, t ∈ ran p' -> t ∈ ran p \/ Holding t ∈ workers_ p).
Proof.
  intros Hs Ht Hsteps. revert p' Hsteps.
  apply rtc_ind_r; [by repeat split; auto |].
  intros p1 p' _ Hstep IH.
  destruct IH as ([Hs1 Ht1] & Hq & _ & Hhold & Hran).
  destruct (stopped_worker_step _ _ Hs1 Ht1 Hstep)
    as (Hs' & Ht' & Hq' & Hj & Hhold' & Hran').
  repeat split; try done.
  - congruence.
  - intros Hj'. congruence.
  - auto.
  - intros t Hin. destruct (Hran' t Hin) as [? | ?]; auto.
Qed.

(** The failing state is one the pool really gets into. *)
Lemma busy_pool_reachable : rtc step (new 1) busy_pool.
Proof.
  eapply rtc_l; [apply (step_enqueue _ 1) |].
  eapply rtc_l.
  { apply step_worker.
    apply (step_critical _ 0 (Holding 1) []); reflexivity. }
  eapply rtc_l; [apply (step_enqueue _ 2) |].
  apply rtc_refl.
Qed.

(** Left alone, the worker of that pool runs both tasks, in order. *)
Lemma busy_pool_drains_without_wait :
  rtc worker_step busy_pool (mkPool [AtWait] [] false false [1; 2]).
Proof.
  eapply rtc_l; [apply (step_run _ 0 1); reflexivity |].
  eapply rtc_l.
  { apply (step_critical _ 0 (Holding 2) []); reflexivity. }
  eapply rtc_l; [apply (step_run _ 0 2); reflexivity |].
  apply rtc_refl.
Qed.

(** After [terminate] the worker skips the body of the task it holds and
    returns, leaving the queue as it is. *)
Lemma busy_pool_terminates :
  rtc worker_step (request_terminate busy_pool)
    (mkPool [Exited] [2] false true []).
Proof.
  eapply rtc_l; [apply (step_run _ 0 1); reflexivity |].
  eapply rtc_l.
  { apply (step_critical _ 0 Exited [2]); reflexivity. }
  apply rtc_refl.
Qed.

(** C1 (the code departs from it): [wait] called on a one-worker pool
    while the worker runs task 1 and task 2 is queued.  Whatever the
    workers do afterwards, task 2 stays in the queue, its body never runs,
    and the worker never returns, so [wait] never gets past its join. *)
Theorem wait_abandons_queued_task p' :
  rtc worker_step (request_stop busy_pool) p' ->
  tasks_ p' = [2] /\ (2 ∉ ran p') /\ joined p' = false.
Proof.
  intros Hsteps.
  destruct (graceful_stop_never_drains (request_stop busy_pool) p'
              eq_refl eq_refl Hsteps)
    as (_ & Hq & Hj & _ & Hran).
  repeat split; [done | |].
  - intros Hin. destruct (Hran 2 Hin) as [H | H].
    + by apply elem_of_nil in H.
    + simpl in H. by apply list_elem_of_singleton in H.
  - apply not_true_is_false. intros Hjoined.
    by rewrite (Hj Hjoined) in Hjoined.
Qed.

Lemma wait_abandons_queued_task_witness :
  tasks_ (mkPool [AtWait] [2] true false [1]) = [2] /\
  (2 ∉ ran (mkPool [AtWait] [2] true false [1])) /\
  joined (mkPool [AtWait] [2] true false [1]) = false.
Proof.
  apply wait_abandons_queued_task.
  apply rtc_once.
  apply (step_run (request_stop busy_pool) 0 1). reflexivity.
Defined.

(** With no worker at all [wait] does return, with the queued task never
    run. *)
Lemma wait_without_workers :
  joined (request_stop (enqueue 1 (new 0)).2) = true /\
  tasks_ (request_stop (enqueue 1 (new 0)).2) = [1] /\
  ran (request_stop (enqueue 1 (new 0)).2) = [].
Proof. by vm_compute. Qed.

End ThreadPoolFacts.

(** ** Replies to an identity that cannot be parsed *)

Section TransportFacts.
Import Transport.

(** C7, as the code has it: the Unix-domain and TCP backends throw exactly
    when [std::stoi] throws on the identity, with that exception and
    before any system call; the UDP backend returns normally, without any
    system call, when the identity holds no [":"], and when it holds one
    it throws exactly when [std::stoi] throws on the text after the first
    [":"], with that exception and before any system call. *)
Theorem send_unparsable_identity (u : UnixSocketTransport)
    (d : UdpTransport) (t : TcpTransport) (data client_id : string)
    (log : list syscall) :
  (forall e log',
      send u data client_id log = (Throw e, log') <->
      stoi client_id = Throw e /\ log' = log) /\
  (forall e log',
      send t data client_id log = (Throw e, log') <->
      stoi client_id = Throw e /\ log' = log) /\
  (index 0 ":" client_id = None ->
   send d data client_id log = (Ok tt, log)) /\
  (forall delim,
      index 0 ":" client_id = Some delim ->
      forall e log',
        send d data client_id log = (Throw e, log') <->
        stoi (substr_from (delim + 1) client_id) = Throw e /\ log' = log).
Proof.
  split; [| split; [| split]].
  - intros e log'. unfold send, UnixSocketTransport_send, bind, lift, emit.
    destruct (stoi client_id) as [fd | e0]; simpl.
    + split; [done | by intros [? _]].
    + split; [by intros [= -> ->] | by intros [[= ->] ->]].
  - intros e log'. unfold send, TcpTransport_send, bind, lift, emit.
    destruct (stoi client_id) as [fd | e0]; simpl.
    + split; [done | by intros [? _]].
    + split; [by intros [= -> ->] | by intros [[= ->] ->]].
  - intros Hno. unfold send, UdpTransport_send. by rewrite Hno.
  - intros delim Hdelim e log'.
    unfold send, UdpTransport_send. rewrite Hdelim.
    unfold bind, lift, emit.
    destruct (stoi (substr_from (delim + 1) client_id)) as [port | e0]; simpl.
    + split; [done | by intros [? _]].
    + split; [by intros [= -> ->] | by intros [[= ->] ->]].
Qed.

Lemma send_unparsable_identity_witness :
  (send (Build_UnixSocketTransport "/tmp/socks.sock" 3) "reply" "garbage" []
   = (Throw (invalid_argument "stoi"), []) /\
   send (Build_TcpTransport 8080 "127.0.0.1" 3) "reply" "99999999999" []
   = (Throw (out_of_range "stoi"), [])) /\
  send (Build_UdpTransport 8080 "127.0.0.1" 4) "reply" "garbage" []
  = (Ok tt, []) /\
  send (Build_UdpTransport 8080 "127.0.0.1" 4) "reply" "10.0.0.7:port" []
  = (Throw (invalid_argument "stoi"), []) /\
  send (Build_UdpTransport 8080 "127.0.0.1" 4) "reply" "1.2.3.4:99999999999" []
  = (Throw (out_of_range "stoi"), []).
Proof.
  destruct (send_unparsable_identity
              (Build_UnixSocketTransport "/tmp/socks.sock" 3)
              (Build_UdpTransport 8080 "127.0.0.1" 4)
              (Build_TcpTransport 8080 "127.0.0.1" 3)
              "reply" "garbage" []) as (Hunix & _ & Hudp & _).
  destruct (send_unparsable_identity
              (Build_UnixSocketTransport "/tmp/socks.sock" 3)
              (Build_UdpTransport 8080 "127.0.0.1" 4)
              (Build_TcpTransport 8080 "127.0.0.1" 3)
              "reply" "99999999999" []) as (_ & Htcp & _).
  destruct (send_unparsable_identity
              (Build_UnixSocketTransport "/tmp/socks.sock" 3)
              (Build_UdpTransport 8080 "127.0.0.1" 4)
              (Build_TcpTransport 8080 "127.0.0.1" 3)
              "reply" "10.0.0.7:port" []) as (_ & _ & _ & Hport).
  destruct (send_unparsable_identity
              (Build_UnixSocketTransport "/tmp/socks.sock" 3)
              (Build_UdpTransport 8080 "127.0.0.1" 4)
              (Build_TcpTransport 8080 "127.0.0.1" 3)
              "reply" "1.2.3.4:99999999999" []) as (_ & _ & _ & Hrange).
  split; [split |].
  - apply Hunix. split; reflexivity.
  - apply Htcp. split; reflexivity.
  - split; [apply Hudp; reflexivity |].
    split.
    + apply (Hport 8); [reflexivity |]. split; reflexivity.
    + apply (Hrange 7); [reflexivity |]. split; reflexivity.
Defined.

(** C7 as stated fails: on the identity ["garbage"] the Unix-domain and
    TCP backends throw while the UDP backend returns normally, having
    sent nothing. *)
Lemma udp_send_ignores_unparsable_identity :
  send (Build_UnixSocketTransport "/tmp/socks.sock" 3) "reply" "garbage" []
  = (Throw (invalid_argument "stoi"), []) /\
  send (Build_TcpTransport 8080 "127.0.0.1" 3) "reply" "garbage" []
  = (Throw (invalid_argument "stoi"), []) /\
  send (Build_UdpTransport 8080 "127.0.0.1" 4) "reply" "garbage" []
  = (Ok tt, []).
Proof. by vm_compute. Qed.

(** A well-formed identity, for comparison. *)
Lemma send_parsable_identity :
  send (Build_TcpTransport 8080 "127.0.0.1" 3) "reply" "7" []
  = (Ok tt, [sys_write 7 "reply"; sys_close 7]) /\
  send (Build_UdpTransport 8080 "127.0.0.1" 4) "reply" "10.0.0.7:5000" []
  = (Ok tt, [sys_sendto 4 "10.0.0.7" 5000 "reply"]).
Proof. by vm_compute. Qed.

End TransportFacts.

(** ** The server's per-message task *)

Section ServerFacts.
Import Server.

Variable parse : string -> result json.
Variable dump : json -> result string.
Variable transport_send : string -> string -> result unit.
Variable handlers_ : gmap string Handler.

Lemma error_null message : error JNull message = Ok (failure_response message).
Proof. reflexivity. Qed.

Lemma failure_response_success msg :
  value_bool (failure_response msg) "_success" false = Ok false.
Proof. reflexivity. Qed.

Lemma failure_response_msg msg default :
  value_string (failure_response msg) "_msg" default = Ok msg.
Proof. reflexivity. Qed.



(** A command without handler, be it named by the message or the
    default substituted for a missing [_cmd]. *)
Lemma respond_no_handler data request command :
  parse data = Ok request ->
  value_string request "_cmd" "<no _cmd>" = Ok command ->
  handlers_ !! command = None ->
  respond parse handlers_ data []
  = (Ok (failure_response ("Unknown command: " +:+ command)), []).
Proof.
  intros Hparse Hcmd Hnone.
  unfold respond, try_catch_std, dispatch, bind, lift.
  unfold Handler in *. by rewrite Hparse, Hcmd, Hnone.
Qed.

(** What the task hands to the transport once the response is known. *)
Lemma task_sends data client_id response log :
  respond parse handlers_ data [] = (Ok response, log) ->
  (task parse dump transport_send handlers_ data client_id []).2
  = match dump response with
    | Ok text => log ++ [Send text client_id]
    | Throw _ => log
    end.
Proof.
  intros Hresp. unfold task, bind. rewrite Hresp.
  unfold try_catch_std, bind, lift, emit.
  destruct (dump response) as [text | e]; simpl.
  - destruct (transport_send text client_id) as [[] | e]; simpl; [done |].
    by destruct (std_what e).
  - by destruct (std_what e).
Qed.


End ServerFacts.



(** ** The client *)

Section ClientFacts.
Import Client.

Variable parse : string -> result json.
Variable dump : json -> result string.

(** C4: a request for a command without handler (such as ["nope"])
    gets the response [{"_success": false, "_msg": "Unknown command:
    <name>"}], no handler is invoked, that envelope is what the server
    hands to its transport, and the client's [send_request] throws an
    error whose text carries that message. *)
Theorem unknown_command_round_trip
    (handlers_ : gmap string Server.Handler)
    (server_send : string -> string -> result unit)
    (client_send : string -> result string)
    (cmd : string) (fields : gmap string json)
    (text_request text_reply client_id : string) :
  handlers_ !! cmd = None ->
  dump (JObject (<["_cmd" := JString cmd]> fields)) = Ok text_request ->
  parse text_request = Ok (JObject (<["_cmd" := JString cmd]> fields)) ->
  dump (failure_response ("Unknown command: " +:+ cmd)) = Ok text_reply ->
  parse text_reply = Ok (failure_response ("Unknown command: " +:+ cmd)) ->
  client_send text_request = Ok text_reply ->
  Server.respond parse handlers_ text_request []
  = (Ok (failure_response ("Unknown command: " +:+ cmd)), []) /\
  (Server.task parse dump server_send handlers_ text_request client_id []).2
  = [Server.Send text_reply client_id] /\
  send_request parse dump client_send cmd (JObject fields) []
  = (Throw (runtime_error ("Request failed: " +:+ "Unknown command: " +:+ cmd)),
     [TransportSend text_request]).
Proof.
  intros Hnone Hdq Hpq Hdr Hpr Hnet.
  assert (Server.respond parse handlers_ text_request []
          = (Ok (failure_response ("Unknown command: " +:+ cmd)), []))
    as Hresp.
  { apply respond_no_handler
      with (JObject (<["_cmd" := JString cmd]> fields)); [done | | done].
    simpl. by rewrite lookup_insert_eq. }
  split; [done |]. split.
  - rewrite (task_sends _ _ _ _ _ _ _ _ Hresp). by rewrite Hdr.
  - unfold send_request, bind, lift, emit, raise. simpl.
    rewrite Hdq. simpl. rewrite Hnet, Hpr.
    by rewrite failure_response_success, failure_response_msg.
Qed.

(** The only transport call of [send_request] carries the serialised
    copy. *)
Lemma send_request_log (transport_send : string -> result string)
    endpoint request f log :
  assign_cmd endpoint (copy_request request) = Ok f ->
  (send_request parse dump transport_send endpoint request log).2
  = match dump (full_request f) with
    | Ok text => log ++ [TransportSend text]
    | Throw _ => log
    end.
Proof.
  intros Hf. unfold send_request, bind, lift, emit, raise, ret.
  rewrite Hf.
  destruct (dump (full_request f)) as [text |]; [| done].
  destruct (transport_send text) as [response_str |]; [| done].
  destruct (parse response_str) as [response |]; [| done].
  destruct (value_bool response "_success" false) as [[] |]; try done.
  simpl.
  by destruct (value_string response "_msg" "Unknown server error.").
Qed.

(** C9: for an object payload, [send_request] works on a copy: the copy
    gets ["_cmd"] set to the command name, replacing any ["_cmd"] of the
    payload and keeping every other member; the caller's object is what
    it was; the text given to the transport is the serialised copy. *)
Theorem send_request_wire_request (transport_send : string -> result string)
    (endpoint : string) (fields : gmap string json) (log : list call) :
  assign_cmd endpoint (copy_request (JObject fields))
  = Ok (mkFrame (JObject fields)
                (JObject (<["_cmd" := JString endpoint]> fields))) /\
  (<["_cmd" := JString endpoint]> fields) !! "_cmd"
  = Some (JString endpoint) /\
  (forall key, key ≠ "_cmd" ->
               (<["_cmd" := JString endpoint]> fields) !! key
               = fields !! key) /\
  (send_request parse dump transport_send endpoint (JObject fields) log).2
  = match dump (JObject (<["_cmd" := JString endpoint]> fields)) with
    | Ok text => log ++ [TransportSend text]
    | Throw _ => log
    end.
Proof.
  split; [reflexivity |].
  split; [apply lookup_insert_eq |].
  split; [intros key Hkey; by apply lookup_insert_ne |].
  by rewrite (send_request_log transport_send endpoint (JObject fields)
                (mkFrame (JObject fields)
                   (JObject (<["_cmd" := JString endpoint]> fields)))
                log eq_refl).
Qed.

(** A null payload is taken for the empty object; any other payload that
    is not an object makes [send_request] throw before anything is
    sent. *)
Lemma send_request_null_payload endpoint :
  assign_cmd endpoint (copy_request JNull)
  = Ok (mkFrame JNull (JObject (<["_cmd" := JString endpoint]> ∅))).
Proof. reflexivity. Qed.

Lemma send_request_not_object (transport_send : string -> result string)
    endpoint request log :
  is_object request = false -> request ≠ JNull ->
  exists e,
    send_request parse dump transport_send endpoint request log
    = (Throw e, log).
Proof.
  intros Hobj Hnull. unfold send_request, bind, lift.
  destruct request; try done; by eexists.
Qed.

Lemma failure_envelope_response what :
  failure_envelope what = failure_response what.
Proof. reflexivity. Qed.

(** With a callback that does not throw, the thread of
    [send_request_bg] invokes it once: with the response, or with the
    failure envelope made from the error text. *)
Lemma bg_callback_once (transport_send : string -> result string)
    endpoint request (callback : Callback) log :
  (forall arg, callback arg = Ok tt) ->
  match send_request parse dump transport_send endpoint request log with
  | (Ok response, log') =>
      send_request_bg parse dump transport_send endpoint request callback log
      = (Ok tt, log' ++ [CallbackCall response])
  | (Throw e, log') =>
      match std_what e with
      | Some what =>
          send_request_bg parse dump transport_send endpoint request
            callback log
          = (Ok tt, log' ++ [CallbackCall (failure_envelope what)])
      | None =>
          send_request_bg parse dump transport_send endpoint request
            callback log
          = (Throw e, log')
      end
  end.
Proof.
  intros Hcb.
  unfold send_request_bg, invoke, try_catch_std, bind, emit, lift.
  destruct (send_request parse dump transport_send endpoint request log)
    as [[response | e] log'].
  - by rewrite Hcb.
  - destruct (std_what e) as [what |]; [| done]. by rewrite Hcb.
Qed.

(** C6 (the code departs from it): when [send_request] succeeds and the
    callback throws on the response, the [catch] of the thread invokes the
    callback a second time, with a failure envelope made from the
    callback's own error text; the outcome of the thread is the outcome of
    that second invocation, so an exception thrown there leaves the
    thread function. *)
Theorem bg_callback_invoked_twice (transport_send : string -> result string)
    endpoint request (callback : Callback) response e what log log' :
  send_request parse dump transport_send endpoint request log
  = (Ok response, log') ->
  callback response = Throw e ->
  std_what e = Some what ->
  send_request_bg parse dump transport_send endpoint request callback log
  = (callback (failure_envelope what),
     log' ++ [CallbackCall response; CallbackCall (failure_envelope what)]).
Proof.
  intros Hsr Hcb Hwhat.
  unfold send_request_bg, invoke, try_catch_std, bind, emit, lift.
  rewrite Hsr. cbv beta iota. rewrite Hcb. cbv beta iota.
  rewrite Hwhat. by rewrite <- app_assoc.
Qed.

End ClientFacts.

Lemma unknown_command_round_trip_witness :
  Server.respond nope_parse ∅ nope_request_text []
  = (Ok (failure_response "Unknown command: nope"), []) /\
  (Server.task nope_parse nope_dump (fun _ _ => Ok tt) ∅
     nope_request_text "7" []).2
  = [Server.Send nope_reply_text "7"] /\
  Client.send_request nope_parse nope_dump (fun _ => Ok nope_reply_text)
    "nope" (JObject ∅) []
  = (Throw (runtime_error "Request failed: Unknown command: nope"),
     [Client.TransportSend nope_request_text]).
Proof.
  apply (unknown_command_round_trip nope_parse nope_dump ∅ (fun _ _ => Ok tt)
           (fun _ => Ok nope_reply_text) "nope" ∅
           nope_request_text nope_reply_text "7"); reflexivity.
Defined.

Lemma bg_callback_invoked_twice_witness :
  Client.send_request_bg
    (fun _ => Ok (JObject {["_success" := JBool true]}))
    (fun _ => Ok "request")
    (fun _ => Ok "reply")
    "ping" (JObject ∅) throwing_callback []
  = (Throw (runtime_error "callback failed"),
     [Client.TransportSend "request";
      Client.CallbackCall (JObject {["_success" := JBool true]});
      Client.CallbackCall (failure_response "callback failed")]).
Proof.
  apply (bg_callback_invoked_twice
           (fun _ => Ok (JObject {["_success" := JBool true]}))
           (fun _ => Ok "request") (fun _ => Ok "reply")
           "ping" (JObject ∅) throwing_callback
           (JObject {["_success" := JBool true]})
           (runtime_error "callback failed") "callback failed"
           [] [Client.TransportSend "request"]); reflexivity.
Defined.

(** ** More on schema validation *)

Section SchemaMore.
Import Schema.

(** The loop succeeds exactly when every entry finds its key and passes
    its check. *)
Lemma for_each_entry_ok check obj path (schema : ParamSchemaMap) :
  for_each_entry check obj path schema = Ok tt <->
  Forall (fun entry =>
            exists v, at_ obj entry.1 = Ok v /\
                      check entry.2 v (full_path_of path entry.1) = Ok tt)
         schema.
Proof.
  induction schema as [| [key sv] rest IH]; simpl.
  - split; [constructor | done].
  - rewrite Forall_cons. simpl. rewrite <- IH. clear IH.
    destruct (contains obj key) eqn:Hc; simpl.
    + destruct (contains_at _ _ Hc) as [v Hv]. rewrite Hv. simpl.
      destruct (check sv v (full_path_of path key)) as [[] |] eqn:Hchk;
        simpl.
      * split; [| by intros [_ ?]].
        intros Hrest. split; [| done]. by exists v.
      * split; [done |].
        intros [(v' & Hv' & Hchk') _]. congruence.
    + split; [done |].
      intros [(v & Hv & _) _].
      apply at_contains in Hv. congruence.
Qed.

Lemma check_entry_conforms schema_val :
  forall json_val full_path,
    check_entry schema_val json_val full_path = Ok tt <->
    conforms schema_val json_val.
Proof.
  induction schema_val as [t | ts | m IH] using ParamSchema_nested_ind;
    intros json_val full_path; simpl.
  - case_bool_decide as Hne; simpl.
    + split; [done |]. by inversion 1.
    + split; [| done]. intros _. constructor.
      by destruct (decide (type json_val = t)).
  - destruct (existsb _ ts) eqn:Hex; simpl.
    + split; [| done]. intros _. constructor.
      apply existsb_exists in Hex as (t & Hin & Ht).
      apply bool_decide_eq_true in Ht as ->. by apply list_elem_of_In.
    + split; [done |]. inversion 1 as [| ? ? Hin |]; subst.
      apply not_true_iff_false in Hex. exfalso. apply Hex.
      apply existsb_exists. exists (type json_val).
      split; [by apply list_elem_of_In | by apply bool_decide_eq_true].
  - destruct json_val; simpl; try (split; [done | by inversion 1]).
    rewrite for_each_entry_ok. rewrite Forall_forall in IH.
    rewrite Forall_forall. split.
    + intros Hall. constructor. intros key sv Hin.
      destruct (Hall _ Hin) as (v & Hv & Hchk). simpl in *.
      exists v. split.
      * by destruct (fields !! key); [injection Hv as -> |].
      * by apply (IH _ Hin v (full_path_of full_path key)).
    + inversion 1 as [| | ? ? Hall]; subst. intros [key sv] Hin.
      destruct (Hall _ _ Hin) as (v & Hv & Hconf). simpl.
      exists v. rewrite Hv. split; [done |].
      by apply (IH _ Hin).
Qed.

(** X1: the validator decides [conforms]: an object is accepted exactly
    when it is an object that has, for every entry of the schema, the
    entry's key with a value the entry's node admits. *)
Theorem assert_parameters_iff_conforms obj (schema : ParamSchemaMap) :
  assert_parameters obj schema = Ok tt <-> conforms (SchemaNested schema) obj.
Proof.
  rewrite <- (check_entry_conforms (SchemaNested schema) obj EmptyString).
  unfold assert_parameters, assert_parameters_impl. simpl.
  by destruct (is_object obj).
Qed.

(** X2: acceptance does not depend on the order in which the entries of the
    schema map are visited. *)
Theorem assert_parameters_any_order obj (schema schema' : ParamSchemaMap) :
  schema ≡ₚ schema' ->
  assert_parameters obj schema = Ok tt <->
  assert_parameters obj schema' = Ok tt.
Proof.
  intros Hperm. unfold assert_parameters, assert_parameters_impl.
  destruct (is_object obj); simpl; [| done].
  rewrite !for_each_entry_ok. by rewrite Hperm.
Qed.

Lemma assert_parameters_any_order_witness :
  assert_parameters
    (JObject (<["n" := JInt 5]> {["meta" := JObject {["retries" := JInt 3]}]}))
    (schema_n ++ schema_meta) = Ok tt <->
  assert_parameters
    (JObject (<["n" := JInt 5]> {["meta" := JObject {["retries" := JInt 3]}]}))
    (schema_meta ++ schema_n) = Ok tt.
Proof.
  apply assert_parameters_any_order. apply Permutation_app_comm.
Defined.

Lemma for_each_entry_runtime_error check obj path (schema : ParamSchemaMap) :
  Forall (fun entry =>
            forall v p, check entry.2 v p = Ok tt \/
                        exists msg, check entry.2 v p
                                    = Throw (runtime_error msg)) schema ->
  for_each_entry check obj path schema = Ok tt \/
  exists msg, for_each_entry check obj path schema
              = Throw (runtime_error msg).
Proof.
  induction 1 as [| [key sv] rest Hhead _ IH]; simpl in *; [by left |].
  destruct (contains obj key) eqn:Hc; simpl; [| right; by eexists].
  destruct (contains_at _ _ Hc) as [v Hv]. rewrite Hv. simpl.
  destruct (Hhead v (full_path_of path key)) as [-> | [msg ->]]; simpl;
    [exact IH | right; by eexists].
Qed.

Lemma check_entry_runtime_error schema_val :
  forall json_val full_path,
    check_entry schema_val json_val full_path = Ok tt \/
    exists msg, check_entry schema_val json_val full_path
                = Throw (runtime_error msg).
Proof.
  induction schema_val as [t | ts | m IH] using ParamSchema_nested_ind;
    intros json_val full_path; simpl.
  - case_bool_decide; [right; by eexists | by left].
  - destruct (existsb _ ts); simpl; [by left | right; by eexists].
  - destruct (is_object json_val); simpl; [| right; by eexists].
    by apply for_each_entry_runtime_error.
Qed.

(** X3: whatever the value and the schema, validation either succeeds or
    throws a [std::runtime_error]; no exception of the JSON library gets
    out of it. *)
Theorem assert_parameters_throws_runtime_error obj (schema : ParamSchemaMap) :
  assert_parameters obj schema = Ok tt \/
  exists msg, assert_parameters obj schema = Throw (runtime_error msg).
Proof.
  unfold assert_parameters, assert_parameters_impl.
  destruct (is_object obj); simpl; [| right; by eexists].
  apply for_each_entry_runtime_error.
  apply Forall_forall. intros entry _. apply check_entry_runtime_error.
Qed.

(** X4: validation is fail-fast along the entries: the entries before a
    violation decide the outcome, the rest is examined only when they all
    pass. *)
Theorem assert_parameters_impl_app obj (schema1 schema2 : ParamSchemaMap)
    path :
  assert_parameters_impl obj (schema1 ++ schema2) path
  = match assert_parameters_impl obj schema1 path with
    | Ok _ => assert_parameters_impl obj schema2 path
    | Throw e => Throw e
    end.
Proof.
  unfold assert_parameters_impl.
  induction schema1 as [| [key sv] rest IH]; simpl; [done |].
  destruct (contains obj key); simpl; [| done].
  destruct (at_ obj key) as [v |]; simpl; [| done].
  by destruct (check_entry sv v (full_path_of path key)).
Qed.

End SchemaMore.

(** ** More on the worker pool *)

Section ThreadPoolMore.
Import ThreadPool.

Lemma held_insert (ws : list Worker) i w0 w :
  ws !! i = Some w0 ->
  omap held_task (<[i := w]> ws)
  = omap held_task (take i ws) ++ omap held_task [w] ++
    omap held_task (drop (S i) ws) /\
  omap held_task ws
  = omap held_task (take i ws) ++ omap held_task [w0] ++
    omap held_task (drop (S i) ws).
Proof.
  intros Hi. split.
  - rewrite insert_take_drop by (by eapply lookup_lt_Some).
    rewrite omap_app. f_equal. simpl. by destruct (held_task w).
  - rewrite <- (take_drop_middle ws i w0 Hi) at 1.
    rewrite omap_app. f_equal. simpl. by destruct (held_task w0).
Qed.

(** With [terminate_now_] unset, a worker that gets past the wait takes the
    task at the front of the queue. *)
Lemma worker_critical_running p w q :
  terminate_now_ p = false ->
  worker_critical p = Some (w, q) ->
  exists t, tasks_ p = t :: q /\ w = Holding t.
Proof.
  unfold worker_critical, wait_predicate. intros Ht. rewrite Ht.
  destruct (tasks_ p) as [| t rest]; destruct (stop_ p); simpl; try done.
  intros [= <- <-]. by exists t.
Qed.

Lemma worker_critical_terminating p :
  terminate_now_ p = true ->
  worker_critical p = Some (Exited, tasks_ p).
Proof. unfold worker_critical, wait_predicate. intros Ht. by rewrite Ht. Qed.

Lemma accounted_worker_step p p' :
  worker_step p p' ->
  accounted p' ⊆+ accounted p /\
  (terminate_now_ p = false -> accounted p' ≡ₚ accounted p).
Proof.
  unfold accounted, held.
  destruct 1 as [p i w q Hi Hcrit | p i t Hi]; simpl.
  - destruct (held_insert _ i AtWait w Hi) as [-> ->]. simpl.
    destruct (terminate_now_ p) eqn:Ht.
    + rewrite (worker_critical_terminating _ Ht) in Hcrit.
      injection Hcrit as <- <-. simpl. split; [done | done].
    + destruct (worker_critical_running _ _ _ Ht Hcrit) as (t & -> & ->).
      simpl.
      assert (ran p ++ (omap held_task (take i (workers_ p)) ++
                t :: omap held_task (drop (S i) (workers_ p))) ++ q
              ≡ₚ ran p ++ (omap held_task (take i (workers_ p)) ++
                   omap held_task (drop (S i) (workers_ p))) ++ t :: q)
        as Hperm by solve_Permutation.
      split; [by rewrite Hperm | by intros _].
  - destruct (run_wrapped_frame t p) as (_ & -> & _ & _).
    destruct (held_insert _ i (Holding t) AtWait Hi) as [-> ->]. simpl.
    unfold run_wrapped. destruct (terminate_now_ p); simpl.
    + split; [| done].
      apply submseteq_app; [done |]. apply submseteq_app; [| done].
      apply submseteq_app; [done |]. by apply submseteq_cons.
    + assert ((ran p ++ [t]) ++
                (omap held_task (take i (workers_ p)) ++
                 omap held_task (drop (S i) (workers_ p))) ++ tasks_ p
              ≡ₚ ran p ++ (omap held_task (take i (workers_ p)) ++
                   t :: omap held_task (drop (S i) (workers_ p))) ++
                 tasks_ p)
        as Hperm by solve_Permutation.
      split; [by rewrite Hperm | by intros _].
Qed.

Lemma worker_step_terminate_now p p' :
  worker_step p p' -> terminate_now_ p' = terminate_now_ p.
Proof.
  destruct 1 as [p i w q Hi Hcrit | p i t Hi]; simpl; [done |].
  by destruct (run_wrapped_frame t p) as (_ & _ & _ & ->).
Qed.

(** X5: while termination is not requested, the workers neither lose nor
    duplicate a task: what has run, what the workers hold and what is
    queued stay, together, the same collection of tasks. *)
Theorem worker_steps_keep_tasks p p' :
  terminate_now_ p = false ->
  rtc worker_step p p' ->
  accounted p' ≡ₚ accounted p.
Proof.
  intros Ht Hsteps.
  induction Hsteps as [p | p p1 p' Hstep _ IH]; [done |].
  rewrite IH by (by rewrite (worker_step_terminate_now _ _ Hstep)).
  by apply accounted_worker_step.
Qed.

Lemma worker_steps_keep_tasks_witness :
  accounted (mkPool [AtWait] [] false false [1; 2]) ≡ₚ accounted busy_pool.
Proof.
  apply worker_steps_keep_tasks; [reflexivity |].
  eapply rtc_l; [apply (step_run _ 0 1); reflexivity |].
  eapply rtc_l.
  { apply (step_critical _ 0 (Holding 2) []); reflexivity. }
  eapply rtc_l; [apply (step_run _ 0 2); reflexivity |].
  apply rtc_refl.
Defined.

Lemma accounted_worker_steps p p' :
  rtc worker_step p p' -> accounted p' ⊆+ accounted p.
Proof.
  induction 1 as [p | p p1 p' Hstep _ IH]; [done |].
  etrans; [exact IH |]. by apply accounted_worker_step.
Qed.

Lemma submseteq_NoDup_l {A} (l k : list A) : l ⊆+ k -> NoDup k -> NoDup l.
Proof.
  intros (l2 & Hsub & Hperm)%submseteq_sublist_l Hk.
  eapply sublist_NoDup; [| exact Hsub]. by rewrite Hperm.
Qed.

(** X6: no task body runs twice: when the tasks the pool knows of are
    pairwise distinct, so are, at any later time and whatever the flags,
    the tasks that have run. *)
Theorem no_task_runs_twice p p' :
  NoDup (accounted p) ->
  rtc worker_step p p' ->
  NoDup (ran p').
Proof.
  intros Hnodup Hsteps.
  assert (NoDup (accounted p')) as Hnodup'.
  { eapply submseteq_NoDup_l; [| exact Hnodup].
    by apply accounted_worker_steps. }
  unfold accounted in Hnodup'. by apply NoDup_app in Hnodup' as [? _].
Qed.

Lemma no_task_runs_twice_witness :
  NoDup (ran (mkPool [AtWait] [] false false [1; 2])).
Proof.
  apply (no_task_runs_twice busy_pool).
  - unfold accounted, held. simpl.
    apply NoDup_cons. split; [| apply NoDup_singleton].
    by intros ?%list_elem_of_singleton.
  - eapply rtc_l; [apply (step_run _ 0 1); reflexivity |].
    eapply rtc_l.
    { apply (step_critical _ 0 (Holding 2) []); reflexivity. }
    eapply rtc_l; [apply (step_run _ 0 2); reflexivity |].
    apply rtc_refl.
Defined.

Lemma single_worker_step p p' w :
  workers_ p = [w] ->
  terminate_now_ p = false ->
  worker_step p p' ->
  (exists w', workers_ p' = [w']) /\ accounted p' = accounted p.
Proof.
  unfold accounted, held. intros Hws Ht.
  destruct 1 as [p i w1 q Hi Hcrit | p i t Hi]; simpl;
    rewrite Hws in *;
    (destruct i as [| i]; [| by destruct i]); injection Hi as ->; simpl.
  - split; [by eexists |].
    by destruct (worker_critical_running _ _ _ Ht Hcrit) as (t & -> & ->).
  - split; [by eexists |].
    unfold run_wrapped. rewrite Ht. simpl. by rewrite <- app_assoc.
Qed.

(** X7: a pool with a single worker runs the tasks in the order of the
    queue: what has run, then the task in hand, then the queue is always
    the same sequence, so what has run is an initial part of it. *)
Theorem single_worker_fifo p p' w :
  workers_ p = [w] ->
  terminate_now_ p = false ->
  rtc worker_step p p' ->
  accounted p' = accounted p /\ ran p' `prefix_of` accounted p.
Proof.
  intros Hws Ht Hsteps.
  assert (accounted p' = accounted p) as Heq.
  { revert w Hws Ht.
    induction Hsteps as [p | p p1 p' Hstep _ IH]; intros w Hws Ht; [done |].
    destruct (single_worker_step _ _ _ Hws Ht Hstep) as [[w' Hws'] Heq].
    rewrite (IH w' Hws'); [done |].
    by rewrite (worker_step_terminate_now _ _ Hstep). }
  split; [done |]. rewrite <- Heq. by eexists.
Qed.

Lemma single_worker_fifo_witness :
  accounted (mkPool [AtWait] [] false false [1; 2]) = accounted busy_pool /\
  ran (mkPool [AtWait] [] false false [1; 2]) `prefix_of` accounted busy_pool.
Proof.
  apply (single_worker_fifo busy_pool _ (Holding 1)); [done | done |].
  eapply rtc_l; [apply (step_run _ 0 1); reflexivity |].
  eapply rtc_l.
  { apply (step_critical _ 0 (Holding 2) []); reflexivity. }
  eapply rtc_l; [apply (step_run _ 0 2); reflexivity |].
  apply rtc_refl.
Defined.

(** X10: after [wait] has set [stop_], and unless [terminate] is called, a
    pool that still has a worker that has not returned never gets all its
    workers joined, and its queue stays as it is: the join loop of [wait]
    does not end. *)
Theorem wait_never_joins p p' :
  stop_ p = true ->
  terminate_now_ p = false ->
  joined p = false ->
  rtc worker_step p p' ->
  joined p' = false /\ tasks_ p' = tasks_ p.
Proof.
  intros Hs Ht Hj Hsteps.
  destruct (graceful_stop_never_drains p p' Hs Ht Hsteps)
    as (_ & Hq & Hsame & _).
  split; [| done].
  apply not_true_is_false. intros Hj'.
  rewrite (Hsame Hj') in Hj'. congruence.
Qed.

Lemma wait_never_joins_witness :
  joined (mkPool [AtWait] [2] true false [1]) = false /\
  tasks_ (mkPool [AtWait] [2] true false [1])
  = tasks_ (request_stop busy_pool).
Proof.
  apply (wait_never_joins (request_stop busy_pool)); try reflexivity.
  apply rtc_once. apply (step_run (request_stop busy_pool) 0 1). reflexivity.
Defined.

End ThreadPoolMore.

(** ** The wrapped callable under termination *)

Section WrappedTaskFacts.
Import WrappedTask.

Lemma calling_insert (ws : list Thread) i w0 w :
  ws !! i = Some w0 ->
  omap calling_task (<[i := w]> ws)
  = omap calling_task (take i ws) ++ omap calling_task [w] ++
    omap calling_task (drop (S i) ws) /\
  omap calling_task ws
  = omap calling_task (take i ws) ++ omap calling_task [w0] ++
    omap calling_task (drop (S i) ws).
Proof.
  intros Hi. split.
  - rewrite insert_take_drop by (by eapply lookup_lt_Some).
    rewrite omap_app. f_equal. simpl. by destruct (calling_task w).
  - rewrite <- (take_drop_middle ws i w0 Hi) at 1.
    rewrite omap_app. f_equal. simpl. by destruct (calling_task w0).
Qed.

(** One move of a worker once the flag is set: the critical section makes
    it return, the test of the callable makes it skip the body, and only
    a body already being called adds to what has returned. *)
Lemma terminating_thread_step s s' :
  terminate_now s = true ->
  thread_step s s' ->
  terminate_now s' = true /\ queue s' = queue s /\ stop s' = stop s /\
  returned s `prefix_of` returned s' /\
  returned s' ++ calling s' ≡ₚ returned s ++ calling s.
Proof.
  intros Ht.
  destruct 1 as [s i w q Hi Hcrit | s i t Hi | s i t Hi]; unfold calling;
    simpl.
  - rewrite (worker_critical_terminating (members s) Ht) in Hcrit.
    injection Hcrit as <- <-. simpl.
    destruct (calling_insert _ i Waiting Returned Hi) as [-> ->].
    by repeat split.
  - unfold should_terminate. rewrite Ht.
    destruct (calling_insert _ i (Dequeued t) Waiting Hi) as [-> ->].
    by repeat split.
  - destruct (calling_insert _ i (Calling t) Waiting Hi) as [-> ->]. simpl.
    repeat split; [done | by apply prefix_app_r |].
    solve_Permutation.
Qed.

(** X8: once [terminate] has set its flag the queue is never consumed, and
    the only task bodies that still return are bodies that were already
    being called, past the test of [should_terminate()], when the flag was
    set: what has returned only grows, and together with what is being
    called it stays the same collection.  A task still queued, or dequeued
    with the flag not yet read, is never run. *)
Theorem terminate_only_finishes_calls s s' :
  terminate_now s = true ->
  rtc thread_step s s' ->
  queue s' = queue s /\
  returned s `prefix_of` returned s' /\
  returned s' ++ calling s' ≡ₚ returned s ++ calling s.
Proof.
  intros Ht Hsteps.
  induction Hsteps as [s | s s1 s' Hstep _ IH]; [done |].
  destruct (terminating_thread_step _ _ Ht Hstep)
    as (Ht1 & Hq & _ & Hpre & Hperm).
  destruct (IH Ht1) as (-> & Hpre' & ->).
  repeat split; [done | by etrans | done].
Qed.

Lemma terminate_only_finishes_calls_witness :
  queue (mkRun [Waiting; Waiting; Returned] [3] false true [1])
  = queue interrupted_run /\
  returned interrupted_run
    `prefix_of` returned (mkRun [Waiting; Waiting; Returned] [3] false true [1]) /\
  returned (mkRun [Waiting; Waiting; Returned] [3] false true [1]) ++
  calling (mkRun [Waiting; Waiting; Returned] [3] false true [1])
  ≡ₚ returned interrupted_run ++ calling interrupted_run.
Proof.
  apply terminate_only_finishes_calls; [reflexivity |].
  eapply rtc_l; [apply (thread_return _ 0 1); reflexivity |].
  eapply rtc_l; [apply (thread_test _ 1 2); reflexivity |].
  eapply rtc_l.
  { apply (thread_critical _ 2 ThreadPool.Exited [3]); reflexivity. }
  apply rtc_refl.
Defined.

(** Under termination each worker can be brought to its return, one after
    the other; a worker inside a body first lets the body return. *)
Lemma terminate_returns_each (todo : list Thread) :
  forall (done : list Thread) q stop r,
    exists ws,
      rtc thread_step (mkRun (done ++ todo) q stop true r)
                      (mkRun ws q stop true (r ++ omap calling_task todo)) /\
      (forallb is_returned done = true -> forallb is_returned ws = true).
Proof.
  induction todo as [| w todo IH]; intros done q stop r.
  { exists done. simpl. rewrite !app_nil_r. split; [apply rtc_refl | done]. }
  assert (forall w0 w1 : Thread,
             <[length done := w1]> (done ++ w0 :: todo)
             = done ++ w1 :: todo) as Hins.
  { intros w0 w1. rewrite insert_app_r_alt by lia.
    by rewrite Nat.sub_diag. }
  assert (forall r0,
             rtc thread_step (mkRun (done ++ Waiting :: todo) q stop true r0)
                             (mkRun (done ++ Returned :: todo) q stop true r0))
    as Hwait.
  { intros r0. apply rtc_once.
    pose proof (thread_critical
                  (mkRun (done ++ Waiting :: todo) q stop true r0)
                  (length done) ThreadPool.Exited q) as Hstep.
    simpl in Hstep. rewrite Hins in Hstep.
    apply Hstep; [by apply list_lookup_middle | done]. }
  assert (rtc thread_step
            (mkRun (done ++ w :: todo) q stop true r)
            (mkRun (done ++ Returned :: todo) q stop true
               (r ++ omap calling_task [w]))) as Hreturn.
  { destruct w as [| t | t |]; simpl; rewrite ?app_nil_r.
    - apply Hwait.
    - eapply rtc_l; [| apply Hwait].
      pose proof (thread_test
                    (mkRun (done ++ Dequeued t :: todo) q stop true r)
                    (length done) t) as Hstep.
      simpl in Hstep. rewrite Hins in Hstep.
      apply Hstep. by apply list_lookup_middle.
    - eapply rtc_l; [| apply Hwait].
      pose proof (thread_return
                    (mkRun (done ++ Calling t :: todo) q stop true r)
                    (length done) t) as Hstep.
      simpl in Hstep. rewrite Hins in Hstep.
      apply Hstep. by apply list_lookup_middle.
    - apply rtc_refl. }
  destruct (IH (done ++ [Returned]) q stop (r ++ omap calling_task [w]))
    as (ws & Hrun & Hall).
  rewrite <- !app_assoc in Hrun. simpl in Hrun.
  exists ws. split.
  - etrans; [exact Hreturn |].
    replace (r ++ omap calling_task (w :: todo))
      with (r ++ omap calling_task [w] ++ omap calling_task todo);
      [exact Hrun |].
    f_equal. simpl. by destruct (calling_task w).
  - intros Hdone. apply Hall. rewrite forallb_app, Hdone. done.
Qed.

(** X9: [terminate] can always complete, however long the queue, provided
    the bodies being called return: from any state with the flag set the
    workers can all return, and when they have, the queue is untouched and
    what has returned since is exactly the bodies that were already being
    called. *)
Theorem terminate_joins_after_calls s :
  terminate_now s = true ->
  exists s',
    rtc thread_step s s' /\ forallb is_returned (threads s') = true /\
    queue s' = queue s /\ returned s' = returned s ++ calling s.
Proof.
  destruct s as [ws q stop term r]. simpl. intros ->.
  destruct (terminate_returns_each ws [] q stop r) as (ws' & Hrun & Hall).
  exists (mkRun ws' q stop true (r ++ omap calling_task ws)).
  repeat split; [exact Hrun | by apply Hall].
Qed.

Lemma terminate_joins_after_calls_witness :
  exists s',
    rtc thread_step interrupted_run s' /\
    forallb is_returned (threads s') = true /\
    queue s' = [3] /\ returned s' = [1].
Proof. apply (terminate_joins_after_calls interrupted_run). reflexivity. Defined.

End WrappedTaskFacts.

(** ** More on the transports *)

Section TransportMore.
Import Transport TransportIO.

Lemma digit_cases (d : Z) :
  (0 <= d < 10)%Z ->
  d = 0%Z \/ d = 1%Z \/ d = 2%Z \/ d = 3%Z \/ d = 4%Z \/ d = 5%Z \/
  d = 6%Z \/ d = 7%Z \/ d = 8%Z \/ d = 9%Z.
Proof. lia. Qed.

Ltac each_digit H :=
  destruct (digit_cases _ H)
    as [-> | [-> | [-> | [-> | [-> | [-> | [-> | [-> | [-> | ->]]]]]]]]].

Lemma mod_10_digit n : (0 <= n mod 10 < 10)%Z.
Proof. apply Z.mod_pos_bound. lia. Qed.

Lemma digit_digit_char d : (0 <= d < 10)%Z -> digit (digit_char d) = Some d.
Proof. intros H. each_digit H; reflexivity. Qed.

Lemma read_digits_cons c rest acc :
  read_digits (String c rest) acc
  = match digit c with
    | Some d => read_digits rest (Some (10 * default 0 acc + d)%Z)
    | None => acc
    end.
Proof. reflexivity. Qed.

Lemma to_digits_S fuel n s :
  to_digits (S fuel) n s
  = if (n <? 10)%Z then String (digit_char (n mod 10)) s
    else to_digits fuel (n / 10) (String (digit_char (n mod 10)) s).
Proof. reflexivity. Qed.

Lemma to_digits_app fuel n s r :
  to_digits fuel n s +:+ r = to_digits fuel n (s +:+ r).
Proof.
  revert n s. induction fuel as [| fuel IH]; intros n s; [done |].
  rewrite !to_digits_S.
  destruct (n <? 10)%Z; [done |]. by rewrite IH.
Qed.

Lemma to_digits_head fuel n s :
  exists d rest,
    (0 <= d < 10)%Z /\ to_digits (S fuel) n s = String (digit_char d) rest.
Proof.
  revert n s. induction fuel as [| fuel IH]; intros n s.
  - exists (n mod 10)%Z, s. split; [apply mod_10_digit |].
    rewrite to_digits_S. by destruct (n <? 10)%Z.
  - rewrite to_digits_S.
    destruct (n <? 10)%Z; [| apply IH].
    exists (n mod 10)%Z, s. split; [apply mod_10_digit | done].
Qed.

(** Reading back the digits of a number gives the number. *)
Lemma read_to_digits fuel :
  forall n s a,
    (0 <= n < 10 ^ Z.of_nat (S fuel))%Z ->
    default 0%Z a = 0%Z ->
    read_digits (to_digits (S fuel) n s) a = read_digits s (Some n).
Proof.
  induction fuel as [| fuel IH]; intros n s a Hn Ha; rewrite to_digits_S.
  - assert (n < 10)%Z as Hsmall.
    { change (10 ^ Z.of_nat 1)%Z with 10%Z in Hn. lia. }
    rewrite (proj2 (Z.ltb_lt n 10) Hsmall), read_digits_cons.
    rewrite digit_digit_char by apply mod_10_digit. rewrite Ha.
    do 2 f_equal. rewrite Z.mod_small; lia.
  - destruct (n <? 10)%Z eqn:Hlt.
    + apply Z.ltb_lt in Hlt. rewrite read_digits_cons.
      rewrite digit_digit_char by apply mod_10_digit. rewrite Ha.
      do 2 f_equal. rewrite Z.mod_small; lia.
    + apply Z.ltb_ge in Hlt.
      rewrite Nat2Z.inj_succ, Z.pow_succ_r in Hn by lia.
      rewrite IH; [| | exact Ha].
      * rewrite read_digits_cons.
        rewrite digit_digit_char by apply mod_10_digit.
        do 2 f_equal.
        change (default 0%Z (Some (n / 10)%Z)) with (n / 10)%Z.
        pose proof (Z.div_mod n 10 ltac:(lia)). lia.
      * split; [apply Z.div_pos; lia |].
        apply Z.div_lt_upper_bound; lia.
Qed.

Lemma read_digits_stop s n :
  leading_digit s = None -> read_digits s (Some n) = Some n.
Proof. destruct s as [| c s]; simpl; [done |]. by intros ->. Qed.

Lemma stoi_digit_string d r n :
  (0 <= d < 10)%Z ->
  read_digits (String (digit_char d) r) None = Some n ->
  (INT_MIN <= n <= INT_MAX)%Z ->
  stoi (String (digit_char d) r) = Ok n.
Proof.
  intros Hd Hread [Hlo Hhi].
  apply Z.leb_le in Hlo. apply Z.leb_le in Hhi.
  assert (forall c : ascii,
             isspace c = false ->
             (if Ascii.eqb c "-" then true else Ascii.eqb c "+") = false ->
             read_digits (String c r) None = Some n ->
             stoi (String c r) = Ok n) as Hchar.
  { intros c Hspace Hsign Hc. unfold stoi.
    change (skip_spaces (String c r))
      with (if isspace c then skip_spaces r else String c r).
    rewrite Hspace.
    destruct c as [[] [] [] [] [] [] [] []]; try discriminate Hsign;
      cbv beta iota zeta; rewrite Hc; by rewrite Hlo, Hhi. }
  apply Hchar; [| | exact Hread]; each_digit Hd; reflexivity.
Qed.

Lemma stoi_minus s n :
  read_digits s None = Some n ->
  (INT_MIN <= - n <= INT_MAX)%Z ->
  stoi (String "-" s) = Ok (- n)%Z.
Proof.
  intros Hread [Hlo Hhi].
  apply Z.leb_le in Hlo. apply Z.leb_le in Hhi.
  unfold stoi.
  change (skip_spaces (String "-" s)) with (String "-" s).
  cbv beta iota zeta. rewrite Hread. by rewrite Hlo, Hhi.
Qed.

Lemma int_digits n :
  (0 <= n <= 2 ^ 31)%Z -> (0 <= n < 10 ^ Z.of_nat 10)%Z.
Proof. intros [? ?]. split; [done |]. simpl. lia. Qed.

Lemma stoi_to_digits n rest :
  (0 <= n <= INT_MAX)%Z ->
  leading_digit rest = None ->
  stoi (to_digits 10 n rest) = Ok n.
Proof.
  unfold INT_MAX. intros Hn Hrest.
  destruct (to_digits_head 9 n rest) as (d & r & Hd & Heq).
  pose proof (read_to_digits 9 n rest None
                (int_digits n ltac:(lia)) eq_refl) as Hread.
  rewrite (read_digits_stop _ _ Hrest) in Hread.
  rewrite Heq in *.
  apply stoi_digit_string; [done | done |].
  unfold INT_MIN, INT_MAX. lia.
Qed.

Lemma stoi_minus_to_digits n rest :
  (0 < n <= - INT_MIN)%Z ->
  leading_digit rest = None ->
  stoi (String "-" (to_digits 10 n rest)) = Ok (- n)%Z.
Proof.
  unfold INT_MIN. intros Hn Hrest.
  apply stoi_minus; [| unfold INT_MIN, INT_MAX; lia].
  rewrite read_to_digits; [| apply int_digits; lia | done].
  by apply read_digits_stop.
Qed.

(** X11: [std::stoi] reads back what [std::to_string] wrote for an [int],
    also when other text follows that does not start with a digit. *)
Theorem stoi_to_string (value : Z) (rest : string) :
  (INT_MIN <= value <= INT_MAX)%Z ->
  leading_digit rest = None ->
  stoi (to_string value +:+ rest) = Ok value.
Proof.
  intros Hrange Hrest.
  unfold to_string. destruct (value <? 0)%Z eqn:Hneg.
  - apply Z.ltb_lt in Hneg.
    change (String "-" (to_digits 10 (- value) EmptyString) +:+ rest)
      with (String "-" (to_digits 10 (- value) EmptyString +:+ rest)).
    rewrite to_digits_app.
    change (EmptyString +:+ rest) with rest.
    rewrite <- (Z.opp_involutive value) at 2.
    apply stoi_minus_to_digits; [lia | done].
  - apply Z.ltb_ge in Hneg. rewrite to_digits_app.
    change (EmptyString +:+ rest) with rest.
    apply stoi_to_digits; [lia | done].
Qed.

Lemma stoi_to_string_witness :
  stoi (to_string (-2147483648) +:+ " (closed)") = Ok (-2147483648)%Z.
Proof. apply stoi_to_string; [by vm_compute | reflexivity]. Defined.

Lemma append_cons c s r : String c s +:+ r = String c (s +:+ r).
Proof. reflexivity. Qed.

Lemma append_nil_r s : s +:+ EmptyString = s.
Proof.
  induction s as [| c s IH]; [done |]. by rewrite append_cons, IH.
Qed.

Lemma length_substring_le s : forall n m, String.length (substring n m s) <= m.
Proof.
  induction s as [| c s IH]; intros [| n] [| m]; simpl; try lia.
  - specialize (IH 0 m). lia.
  - apply (IH n 0).
  - apply (IH n (S m)).
Qed.

Lemma length_read_string count r :
  String.length (read_string count r) <= count.
Proof.
  destruct r as [| bytes]; simpl; [lia |].
  pose proof (length_substring_le bytes 0
                (Nat.min count (String.length bytes))). lia.
Qed.

Lemma read_len_positive count bytes :
  0 < count -> bytes <> EmptyString ->
  (read_len count (read_bytes bytes) <=? 0)%Z = false.
Proof.
  intros Hcount Hbytes. apply Z.leb_gt. simpl.
  destruct bytes; [done |]. simpl. lia.
Qed.

Lemma stoi_to_string_nil value :
  (INT_MIN <= value <= INT_MAX)%Z -> stoi (to_string value) = Ok value.
Proof.
  intros Hrange.
  unfold to_string. destruct (value <? 0)%Z eqn:Hneg.
  - apply Z.ltb_lt in Hneg.
    rewrite <- (Z.opp_involutive value) at 2.
    apply stoi_minus_to_digits; [lia | done].
  - apply Z.ltb_ge in Hneg. apply stoi_to_digits; [lia | done].
Qed.

(** X12: the identity a stream backend hands out with a message leads its
    [send] back to the connection the message came from: the reply is
    written to the accepted descriptor, which is then closed; [receive]
    itself leaves that descriptor open and returns at most 2047 bytes. *)
Theorem stream_identity_round_trip (u : UnixSocketTransport)
    (t : TcpTransport) (accept_r : Z) (read_r : incoming) (reply : string) :
  (INT_MIN <= accept_r <= INT_MAX)%Z ->
  (forall data client_id calls,
      UnixSocketTransport_receive u accept_r read_r [] =
        (Ok (data, client_id), calls) ->
      send u reply client_id [] =
        (Ok tt, [sys_write accept_r reply; sys_close accept_r]) /\
      String.length data <= 2047 /\
      List.filter (closes accept_r) calls = []) /\
  (forall data client_id calls,
      TcpTransport_receive t accept_r read_r [] =
        (Ok (data, client_id), calls) ->
      send t reply client_id [] =
        (Ok tt, [sys_write accept_r reply; sys_close accept_r]) /\
      String.length data <= 2047 /\
      List.filter (closes accept_r) calls = []).
Proof.
  intros Hrange.
  assert (forall m1 m2 fd data client_id calls,
             stream_receive m1 m2 fd accept_r read_r [] =
               (Ok (data, client_id), calls) ->
             client_id = to_string accept_r /\
             String.length data <= 2047 /\
             List.filter (closes accept_r) calls = []) as Hrecv.
  { intros m1 m2 fd data client_id calls.
    unfold stream_receive, bind, emit, raise, ret.
    destruct (accept_r =? -1)%Z; [done |].
    destruct (read_len (BUFFER_SIZE - 1) read_r <=? 0)%Z; [done |].
    intros [= <- <- <-]. split; [done |].
    split; [apply length_read_string | done]. }
  assert (forall client_id,
             client_id = to_string accept_r ->
             (do! client_fd <- lift (stoi client_id);
              do_! emit (sys_write client_fd reply);
              emit (sys_close client_fd))%M []
             = (Ok tt, [sys_write accept_r reply; sys_close accept_r]))
    as Hsend.
  { intros client_id ->. unfold bind, lift, emit.
    by rewrite (stoi_to_string_nil _ Hrange). }
  split; intros data client_id calls Hreceive;
    destruct (Hrecv _ _ _ _ _ _ Hreceive) as (Hid & Hlen & Hopen);
    (split; [by apply Hsend | done]).
Qed.

Lemma stream_identity_round_trip_witness :
  send (Build_UnixSocketTransport "/tmp/socks.sock" 3) "reply" "7" [] =
    (Ok tt, [sys_write 7 "reply"; sys_close 7]) /\
  String.length "{}" <= 2047 /\
  List.filter (closes 7) [os_accept 3; os_read 7 2047] = [].
Proof.
  destruct (stream_identity_round_trip
              (Build_UnixSocketTransport "/tmp/socks.sock" 3)
              (Build_TcpTransport 8080 "127.0.0.1" 3)
              7 (read_bytes "{}") "reply") as [Hunix _].
  - by vm_compute.
  - apply (Hunix "{}" "7" [os_accept 3; os_read 7 2047]). reflexivity.
Defined.

(** X13: a stream [receive] accounts for the connection it accepted: when it
    throws after a successful [accept], it has closed the accepted
    descriptor, once, as its last call; when [accept] itself fails nothing
    is closed. *)
Theorem stream_receive_failure_closes (u : UnixSocketTransport)
    (t : TcpTransport) (accept_r : Z) (read_r : incoming) :
  (forall e calls,
      UnixSocketTransport_receive u accept_r read_r [] = (Throw e, calls) ->
      exists msg, e = runtime_error msg /\
        if (accept_r =? -1)%Z then calls = [os_accept (unix_server_fd_ u)]
        else calls = [os_accept (unix_server_fd_ u);
                      os_read accept_r 2047; os_close accept_r]) /\
  (forall e calls,
      TcpTransport_receive t accept_r read_r [] = (Throw e, calls) ->
      exists msg, e = runtime_error msg /\
        if (accept_r =? -1)%Z then calls = [os_accept (tcp_server_fd_ t)]
        else calls = [os_accept (tcp_server_fd_ t);
                      os_read accept_r 2047; os_close accept_r]).
Proof.
  assert (forall m1 m2 fd e calls,
             stream_receive m1 m2 fd accept_r read_r [] = (Throw e, calls) ->
             exists msg, e = runtime_error msg /\
               if (accept_r =? -1)%Z then calls = [os_accept fd]
               else calls = [os_accept fd; os_read accept_r 2047;
                             os_close accept_r]) as Hrecv.
  { intros m1 m2 fd e calls.
    unfold stream_receive, bind, emit, raise, ret.
    destruct (accept_r =? -1)%Z; [intros [= <- <-]; by eexists |].
    destruct (read_len (BUFFER_SIZE - 1) read_r <=? 0)%Z; [| done].
    intros [= <- <-]. by eexists. }
  split; intros e calls; apply Hrecv.
Qed.

Lemma stream_receive_failure_closes_witness :
  exists msg,
    runtime_error "Failed to read from TCP client" = runtime_error msg /\
    [os_accept 3; os_read 7 2047; os_close 7]
    = [os_accept 3; os_read 7 2047; os_close 7].
Proof.
  destruct (stream_receive_failure_closes
              (Build_UnixSocketTransport "/tmp/socks.sock" 3)
              (Build_TcpTransport 8080 "127.0.0.1" 3)
              7 (read_bytes EmptyString)) as [_ Htcp].
  apply (Htcp (runtime_error "Failed to read from TCP client")
              [os_accept 3; os_read 7 2047; os_close 7]).
  reflexivity.
Defined.

Lemma no_colon_app s r : no_colon (s +:+ r) = no_colon s && no_colon r.
Proof.
  induction s as [| c s IH]; [done |].
  rewrite append_cons. simpl. rewrite IH. by rewrite andb_assoc.
Qed.

Lemma no_colon_to_digits fuel :
  forall n s, no_colon (to_digits fuel n s) = no_colon s.
Proof.
  induction fuel as [| fuel IH]; intros n s; [done |].
  assert (no_colon (String (digit_char (n mod 10)) s) = no_colon s) as Hd.
  { pose proof (mod_10_digit n) as H. each_digit H; reflexivity. }
  rewrite to_digits_S. destruct (n <? 10)%Z; [done |]. by rewrite IH.
Qed.

Lemma no_colon_to_string value : no_colon (to_string value) = true.
Proof.
  unfold to_string. destruct (value <? 0)%Z.
  - change (no_colon (String "-" ?s)) with (no_colon s).
    by rewrite no_colon_to_digits.
  - by rewrite no_colon_to_digits.
Qed.

Lemma no_colon_inet_ntoa a b c d : no_colon (inet_ntoa a b c d) = true.
Proof.
  unfold inet_ntoa. rewrite !no_colon_app, !no_colon_to_string. reflexivity.
Qed.

Lemma prefix_colon b s :
  String.prefix ":" (String b s) = if ascii_dec ":" b then true else false.
Proof.
  change (String.prefix ":" (String b s))
    with (match ascii_dec ":" b with
          | left _ => String.prefix EmptyString s
          | right _ => false
          end).
  destruct (ascii_dec ":" b); [by destruct s | done].
Qed.

Lemma index_cons s1 b s2 :
  index 0 s1 (String b s2)
  = if String.prefix s1 (String b s2) then Some 0
    else match index 0 s1 s2 with
         | Some n => Some (S n)
         | None => None
         end.
Proof. reflexivity. Qed.

(** Where [find(":")] and the two [substr] cut an identity. *)
Lemma index_colon ip rest :
  no_colon ip = true ->
  index 0 ":" (ip +:+ String ":" rest) = Some (String.length ip).
Proof.
  induction ip as [| c ip IH]; intros Hip.
  - change (EmptyString +:+ String ":" rest) with (String ":" rest).
    rewrite index_cons, prefix_colon.
    by destruct (ascii_dec ":" ":").
  - rewrite append_cons, index_cons, prefix_colon.
    simpl in Hip. apply andb_true_iff in Hip as [Hc Hip].
    apply negb_true_iff, Ascii.eqb_neq in Hc.
    destruct (ascii_dec ":" c) as [<- | _]; [done |].
    by rewrite (IH Hip).
Qed.

Lemma substring_prefix ip rest :
  substring 0 (String.length ip) (ip +:+ rest) = ip.
Proof.
  induction ip as [| c ip IH].
  - by destruct rest.
  - rewrite append_cons. simpl. by rewrite IH.
Qed.

Lemma substring_all s : substring 0 (String.length s) s = s.
Proof. induction s as [| c s IH]; [done |]. simpl. by rewrite IH. Qed.

Lemma substr_from_suffix ip rest :
  substr_from (String.length ip + 1) (ip +:+ String ":" rest) = rest.
Proof.
  unfold substr_from. induction ip as [| c ip IH].
  - simpl. rewrite Nat.sub_0_r. apply substring_all.
  - rewrite append_cons. simpl. exact IH.
Qed.

(** X14: the identity the UDP backend hands out with a datagram leads its
    [send] back to the source of the datagram: the reply goes, in a single
    [sendto] on the server socket, to the dotted address and the port the
    datagram came from; [receive] returns at most 2047 bytes. *)
Theorem udp_identity_round_trip (self : UdpTransport) (bytes : string)
    (a b c d port : Z) (reply : string) :
  (0 <= port < 65536)%Z ->
  bytes <> EmptyString ->
  exists data client_id,
    UdpTransport_receive self (recvfrom_bytes bytes a b c d port) [] =
      (Ok (data, client_id), [os_recvfrom (sock_ self) 2047]) /\
    String.length data <= 2047 /\
    send self reply client_id [] =
      (Ok tt, [sys_sendto (sock_ self) (inet_ntoa a b c d) port reply]).
Proof.
  intros Hport Hbytes.
  exists (read_string (BUFFER_SIZE - 1) (read_bytes bytes)),
         (inet_ntoa a b c d +:+ ":" +:+ to_string port).
  split; [| split; [apply length_read_string |]].
  - unfold UdpTransport_receive, bind, emit, raise, ret.
    by rewrite read_len_positive by (done || (unfold BUFFER_SIZE; lia)).
  - unfold send, UdpTransport_send.
    change (":" +:+ to_string port) with (String ":" (to_string port)).
    rewrite index_colon by apply no_colon_inet_ntoa.
    rewrite substring_prefix, substr_from_suffix.
    unfold bind, lift, emit.
    rewrite stoi_to_string_nil by (unfold INT_MIN, INT_MAX; lia).
    unfold htons. by rewrite Z.mod_small.
Qed.

Lemma udp_identity_round_trip_witness :
  exists data client_id,
    UdpTransport_receive (Build_UdpTransport 8080 "127.0.0.1" 4)
      (recvfrom_bytes "{}" 10 0 0 7 5000) [] =
      (Ok (data, client_id), [os_recvfrom 4 2047]) /\
    String.length data <= 2047 /\
    send (Build_UdpTransport 8080 "127.0.0.1" 4) "reply" client_id [] =
      (Ok tt, [sys_sendto 4 (inet_ntoa 10 0 0 7) 5000 "reply"]).
Proof.
  apply (udp_identity_round_trip (Build_UdpTransport 8080 "127.0.0.1" 4)
           "{}" 10 0 0 7 5000 "reply"); [lia | done].
Defined.

(** X15: [close] is idempotent on the three backends: closing again makes no
    system call and leaves the object as the first [close] left it. *)
Theorem close_idempotent (u : UnixSocketTransport) (d : UdpTransport)
    (t : TcpTransport) :
  UnixSocketTransport_close (UnixSocketTransport_close u).1
  = ((UnixSocketTransport_close u).1, []) /\
  UdpTransport_close (UdpTransport_close d).1
  = ((UdpTransport_close d).1, []) /\
  TcpTransport_close (TcpTransport_close t).1
  = ((TcpTransport_close t).1, []).
Proof.
  unfold UnixSocketTransport_close, UdpTransport_close, TcpTransport_close.
  repeat split.
  - destruct (unix_server_fd_ u =? -1)%Z eqn:E; simpl; [by rewrite E | done].
  - destruct (sock_ d =? -1)%Z eqn:E; simpl; [by rewrite E | done].
  - destruct (tcp_server_fd_ t =? -1)%Z eqn:E; simpl; [by rewrite E | done].
Qed.

(** X16: [bind] never loses the socket it created: it stores the descriptor
    before any check, so whatever the later calls of [bind] return, a
    following [close] closes that descriptor (and, for the Unix-domain
    backend, removes the path); when [socket] itself failed, [close] has
    nothing to do. *)
Theorem bind_then_close (u : UnixSocketTransport) (d : UdpTransport)
    (t : TcpTransport) (socket_r bind_r listen_r : Z) :
  ((UnixSocketTransport_close
      (UnixSocketTransport_bind socket_r bind_r listen_r u).1.1).2
   = if (socket_r =? -1)%Z then []
     else [os_close socket_r; os_unlink (unix_socket_path_ u)]) /\
  ((UdpTransport_close (UdpTransport_bind socket_r bind_r d).1.1).2
   = if (socket_r =? -1)%Z then [] else [os_close socket_r]) /\
  ((TcpTransport_close (TcpTransport_bind socket_r bind_r listen_r t).1.1).2
   = if (socket_r =? -1)%Z then [] else [os_close socket_r]).
Proof.
  unfold UnixSocketTransport_close, UdpTransport_close, TcpTransport_close,
    UnixSocketTransport_bind, UdpTransport_bind, TcpTransport_bind.
  repeat split;
    destruct (socket_r =? -1)%Z eqn:E; simpl;
    try (destruct (bind_r =? -1)%Z; simpl);
    try (destruct (listen_r =? -1)%Z; simpl);
    by rewrite E.
Qed.

Lemma stream_send_client_closes m1 m2 m3 addr fd connect_r write_r read_r
    data calls0 :
  List.filter (closes fd) calls0 = [] ->
  let out :=
    stream_send_client m1 m2 m3 addr fd connect_r write_r read_r data calls0
  in
  List.filter (closes fd) out.2 = [os_close fd] /\
  last out.2 = Some (os_close fd) /\
  (forall reply, out.1 = Ok reply -> String.length reply <= 2047).
Proof.
  intros Hnone. unfold stream_send_client, bind, emit, raise, ret.
  assert ((fd =? fd)%Z = true) as Hfd by apply Z.eqb_refl.
  destruct (connect_r =? -1)%Z; simpl.
  { rewrite !List.filter_app, Hnone, last_snoc. simpl. rewrite Hfd.
    by repeat split. }
  destruct (write_r =? -1)%Z; simpl.
  { rewrite !List.filter_app, Hnone, last_snoc. simpl. rewrite Hfd.
    by repeat split. }
  match goal with
  | |- context [(?len <=? 0)%Z] => destruct (len <=? 0)%Z; simpl
  end.
  { rewrite !List.filter_app, Hnone, last_snoc. simpl. rewrite Hfd.
    by repeat split. }
  rewrite !List.filter_app, Hnone, last_snoc. simpl. rewrite Hfd.
  repeat split. intros reply [= <-]. apply length_read_string.
Qed.

(** X17: a round trip in the client role never leaks its socket: on each of
    the three backends, once [socket] has succeeded, every path, failing
    or not, closes that descriptor exactly once, as its last call; a reply
    that is returned has at most 2047 bytes. *)
Theorem client_send_closes_socket (u : UnixSocketTransport)
    (d : UdpTransport) (t : TcpTransport)
    (socket_r r1 r2 : Z) (read_r : incoming) (data : string) :
  socket_r <> (-1)%Z ->
  (let out := UnixSocketTransport_send_client u socket_r r1 r2 read_r data []
   in List.filter (closes socket_r) out.2 = [os_close socket_r] /\
      last out.2 = Some (os_close socket_r) /\
      (forall reply, out.1 = Ok reply -> String.length reply <= 2047)) /\
  (let out := UdpTransport_send_client d socket_r r1 read_r data []
   in List.filter (closes socket_r) out.2 = [os_close socket_r] /\
      last out.2 = Some (os_close socket_r) /\
      (forall reply, out.1 = Ok reply -> String.length reply <= 2047)) /\
  (let out := TcpTransport_send_client t socket_r r1 r2 read_r data []
   in List.filter (closes socket_r) out.2 = [os_close socket_r] /\
      last out.2 = Some (os_close socket_r) /\
      (forall reply, out.1 = Ok reply -> String.length reply <= 2047)).
Proof.
  intros Hsocket. apply Z.eqb_neq in Hsocket.
  assert ((socket_r =? socket_r)%Z = true) as Hfd by apply Z.eqb_refl.
  split; [| split].
  - unfold UnixSocketTransport_send_client, bind, emit, raise.
    rewrite Hsocket. by apply stream_send_client_closes.
  - unfold UdpTransport_send_client, bind, emit, raise, ret.
    rewrite Hsocket. simpl.
    destruct (r1 =? -1)%Z; simpl; [rewrite Hfd; by repeat split |].
    match goal with
    | |- context [(?len <=? 0)%Z] => destruct (len <=? 0)%Z; simpl
    end; rewrite Hfd; repeat split; try done.
    intros reply [= <-]. apply length_read_string.
  - unfold TcpTransport_send_client, bind, emit, raise.
    rewrite Hsocket. by apply stream_send_client_closes.
Qed.

Lemma client_send_closes_socket_witness :
  List.filter (closes 5)
    (TcpTransport_send_client (TcpTransport_new "127.0.0.1" 8080)
       5 (-1) 0 read_failed "request" []).2 = [os_close 5] /\
  last (TcpTransport_send_client (TcpTransport_new "127.0.0.1" 8080)
          5 (-1) 0 read_failed "request" []).2 = Some (os_close 5) /\
  (forall reply,
      (TcpTransport_send_client (TcpTransport_new "127.0.0.1" 8080)
         5 (-1) 0 read_failed "request" []).1 = Ok reply ->
      String.length reply <= 2047).
Proof.
  destruct (client_send_closes_socket
              (UnixSocketTransport_new "/tmp/socks.sock")
              (UdpTransport_new "127.0.0.1" 8080)
              (TcpTransport_new "127.0.0.1" 8080)
              5 (-1) 0 read_failed "request") as (_ & _ & Htcp); [lia |].
  exact Htcp.
Defined.

End TransportMore.

(** ** More on the server *)

Section ServerMore.
Import Server ServerLoop.

Variable parse : string -> result json.
Variable dump : json -> result string.
Variable transport_send : string -> string -> result unit.
Variable handlers_ : gmap string Handler.

(** X18: what [respond] can give.  At most one handler is invoked, the one
    registered for the command of the parsed request; the response is the
    result of that handler or else a failure envelope; every
    [std::exception] is turned into a failure envelope, only an exception
    of another kind gets out. *)
Theorem respond_outcome data :
  let '(r, log) := respond parse handlers_ data [] in
  (log = [] \/
   exists command request handler,
     log = [Invoked command request] /\
     handlers_ !! command = Some handler /\ parse data = Ok request) /\
  match r with
  | Ok response =>
      (exists msg, response = failure_response msg) \/
      (exists command request handler,
          log = [Invoked command request] /\
          handlers_ !! command = Some handler /\
          handler request = Ok response)
  | Throw e => std_what e = None
  end.
Proof.
  unfold respond, try_catch_std, dispatch, bind, lift, emit, ret.
  unfold Handler in *.
  destruct (parse data) as [request | e] eqn:Hparse.
  2: { destruct (std_what e) eqn:He; simpl; split; auto.
       left. by eexists. }
  destruct (value_string request "_cmd" "<no _cmd>") as [command | e]
    eqn:Hcmd.
  2: { destruct (std_what e) eqn:He; simpl; split; auto.
       left. by eexists. }
  destruct (handlers_ !! command) as [handler |] eqn:Hh; simpl.
  2: { split; [by left |]. left. by eexists. }
  destruct (handler request) as [response | e] eqn:Hrun.
  2: { destruct (std_what e) eqn:He; simpl; (split; [right; by eauto 6 |]);
         [left; by eexists | done]. }
  destruct (value_bool response "_success" false) as [[] | e] eqn:Hs; simpl.
  - split; right; eauto 6.
  - destruct (value_string response "_msg" "No error message") as [msg | e]
      eqn:Hm; simpl.
    + split; right; eauto 6.
    + destruct (std_what e) eqn:He; simpl; (split; [right; by eauto 6 |]);
        [left; by eexists | done].
  - destruct (std_what e) eqn:He; simpl; (split; [right; by eauto 6 |]);
      [left; by eexists | done].
Qed.

(** The log [respond] starts from is left in front of what it adds. *)
Lemma respond_log_append data log :
  respond parse handlers_ data log
  = ((respond parse handlers_ data []).1,
     log ++ (respond parse handlers_ data []).2).
Proof.
  unfold respond, try_catch_std, dispatch, bind, lift, emit, ret.
  unfold Handler in *.
  destruct (parse data) as [request | e].
  2: { destruct (std_what e); simpl; by rewrite app_nil_r. }
  destruct (value_string request "_cmd" "<no _cmd>") as [command | e].
  2: { destruct (std_what e); simpl; by rewrite app_nil_r. }
  destruct (handlers_ !! command) as [handler |]; simpl.
  2: { by rewrite app_nil_r. }
  destruct (handler request) as [response | e].
  2: { by destruct (std_what e). }
  destruct (value_bool response "_success" false) as [[] | e]; simpl.
  - done.
  - destruct (value_string response "_msg" "No error message") as [msg | e];
      simpl; [done |]. by destruct (std_what e).
  - by destruct (std_what e).
Qed.

Lemma respond_log_no_send data :
  List.filter is_send (respond parse handlers_ data []).2 = [].
Proof.
  unfold respond, try_catch_std, dispatch, bind, lift, emit, ret.
  unfold Handler in *.
  destruct (parse data) as [request | e].
  2: { by destruct (std_what e). }
  destruct (value_string request "_cmd" "<no _cmd>") as [command | e].
  2: { by destruct (std_what e). }
  destruct (handlers_ !! command) as [handler |]; simpl; [| done].
  destruct (handler request) as [response | e].
  2: { by destruct (std_what e). }
  destruct (value_bool response "_success" false) as [[] | e]; simpl.
  - done.
  - destruct (value_string response "_msg" "No error message") as [msg | e];
      simpl; [done |]. by destruct (std_what e).
  - by destruct (std_what e).
Qed.

Lemma respond_throws_foreign data e :
  (respond parse handlers_ data []).1 = Throw e -> std_what e = None.
Proof.
  unfold respond, try_catch_std, dispatch, bind, lift, emit, ret.
  unfold Handler in *.
  destruct (parse data) as [request | e0].
  2: { destruct (std_what e0) eqn:He; simpl; [done | congruence]. }
  destruct (value_string request "_cmd" "<no _cmd>") as [command | e0].
  2: { destruct (std_what e0) eqn:He; simpl; [done | congruence]. }
  destruct (handlers_ !! command) as [handler |]; simpl; [| done].
  destruct (handler request) as [response | e0].
  2: { destruct (std_what e0) eqn:He; simpl; [done | congruence]. }
  destruct (value_bool response "_success" false) as [[] | e0]; simpl.
  - done.
  - destruct (value_string response "_msg" "No error message") as [msg | e0];
      simpl; [done |].
    destruct (std_what e0) eqn:He; simpl; [done | congruence].
  - destruct (std_what e0) eqn:He; simpl; [done | congruence].
Qed.

(** X19: the handler registered last under a name answers the requests for
    that name: it is invoked once, with the whole parsed request, and a
    success envelope it returns is the response, unchanged. *)
Theorem registered_handler_answers command (handler : Handler) data fields
    rfields :
  parse data = Ok (JObject fields) ->
  fields !! "_cmd" = Some (JString command) ->
  handler (JObject fields) = Ok (JObject rfields) ->
  rfields !! "_success" = Some (JBool true) ->
  respond parse (add_handler command handler handlers_) data []
  = (Ok (JObject rfields), [Invoked command (JObject fields)]).
Proof.
  intros Hparse Hcmd Hrun Hsuccess.
  unfold respond, try_catch_std, dispatch, bind, lift, emit, ret, add_handler.
  unfold Handler in *.
  rewrite Hparse. simpl. rewrite Hcmd. cbv beta iota.
  rewrite lookup_insert_eq. cbv beta iota. rewrite Hrun. simpl.
  by rewrite Hsuccess.
Qed.

(** X20: a [std::exception] thrown by a handler does not leave the task: the
    response becomes a failure envelope that carries the text of the
    exception. *)
Theorem handler_exception_contained command (handler : Handler) data request
    e what :
  parse data = Ok request ->
  value_string request "_cmd" "<no _cmd>" = Ok command ->
  handlers_ !! command = Some handler ->
  handler request = Throw e ->
  std_what e = Some what ->
  respond parse handlers_ data []
  = (Ok (failure_response ("Invalid JSON or internal error: " +:+ what)),
     [Invoked command request]).
Proof.
  intros Hparse Hcmd Hh Hrun Hwhat.
  unfold respond, try_catch_std, dispatch, bind, lift, emit, ret.
  unfold Handler in *.
  rewrite Hparse, Hcmd. cbv beta iota. rewrite Hh. cbv beta iota.
  rewrite Hrun. simpl. by rewrite Hwhat.
Qed.

(** X21: a handler result that is not a JSON object is not sent: the
    response is replaced by a failure envelope reporting an internal
    error. *)
Theorem handler_result_not_object command (handler : Handler) data request
    response :
  parse data = Ok request ->
  value_string request "_cmd" "<no _cmd>" = Ok command ->
  handlers_ !! command = Some handler ->
  handler request = Ok response ->
  is_object response = false ->
  exists what,
    respond parse handlers_ data []
    = (Ok (failure_response ("Invalid JSON or internal error: " +:+ what)),
       [Invoked command request]).
Proof.
  intros Hparse Hcmd Hh Hrun Hobj.
  unfold respond, try_catch_std, dispatch, bind, lift, emit, ret.
  unfold Handler in *.
  rewrite Hparse, Hcmd. cbv beta iota. rewrite Hh. cbv beta iota.
  rewrite Hrun. destruct response; try done; by eexists.
Qed.

Lemma task_log_append data client_id log :
  task parse dump transport_send handlers_ data client_id log
  = ((task parse dump transport_send handlers_ data client_id []).1,
     log ++ (task parse dump transport_send handlers_ data client_id []).2).
Proof.
  unfold task, bind. rewrite respond_log_append.
  destruct (respond parse handlers_ data []) as [[response | e] rlog]; simpl;
    [| done].
  unfold try_catch_std, bind, lift, emit, ret.
  destruct (dump response) as [text | e]; simpl.
  - destruct (transport_send text client_id) as [[] | e]; simpl;
      [by rewrite <- app_assoc |].
    destruct (std_what e); simpl; by rewrite <- app_assoc.
  - by destruct (std_what e).
Qed.

(** X22: what the task of one message can do: it hands at most one text to
    the transport, and no [std::exception] leaves it, whether thrown by the
    parser, a handler, the serialisation or the transport. *)
Theorem task_outcome data client_id :
  let '(r, log) :=
    task parse dump transport_send handlers_ data client_id [] in
  (r = Ok tt \/ exists e, r = Throw e /\ std_what e = None) /\
  length (List.filter is_send log) <= 1.
Proof.
  unfold task, bind.
  pose proof (respond_log_no_send data) as Hlog.
  pose proof (respond_throws_foreign data) as Hthrow.
  destruct (respond parse handlers_ data []) as [[response | e] rlog];
    simpl in *.
  2: { split; [right; exists e; by auto | rewrite Hlog; simpl; lia]. }
  unfold try_catch_std, bind, lift, emit, ret.
  destruct (dump response) as [text | e]; simpl.
  - destruct (transport_send text client_id) as [[] | e]; simpl.
    + rewrite List.filter_app, Hlog. simpl. split; [by left | lia].
    + destruct (std_what e) eqn:He; simpl;
        rewrite List.filter_app, Hlog; simpl; (split; [| lia]);
        [by left | right; by exists e].
  - destruct (std_what e) eqn:He; simpl; rewrite Hlog; simpl;
      (split; [| lia]); [by left | right; by exists e].
Qed.

Lemma json_value_std_only j key :
  (forall d, std_only (value_string j key d)) /\
  (forall d, std_only (value_bool j key d)).
Proof.
  split; intros d; destruct j; simpl; try (by eexists);
    destruct (fields !! key) as [[] |]; simpl; by eauto.
Qed.

Lemma respond_std_only data :
  std_only (parse data) ->
  (forall command (handler : Handler) request,
      handlers_ !! command = Some handler -> std_only (handler request)) ->
  exists response, (respond parse handlers_ data []).1 = Ok response.
Proof.
  intros Hparse Hhandlers.
  unfold respond, try_catch_std, dispatch, bind, lift, emit, ret.
  unfold Handler in *.
  destruct (parse data) as [request | e].
  2: { destruct Hparse as [w ->]. by eexists. }
  pose proof (proj1 (json_value_std_only request "_cmd") "<no _cmd>") as Hc.
  destruct (value_string request "_cmd" "<no _cmd>") as [command | e].
  2: { destruct Hc as [w ->]. by eexists. }
  destruct (handlers_ !! command) as [handler |] eqn:Hh; simpl.
  2: { by eexists. }
  pose proof (Hhandlers command handler request Hh) as Hrun.
  destruct (handler request) as [response | e].
  2: { destruct Hrun as [w ->]. by eexists. }
  pose proof (proj2 (json_value_std_only response "_success") false) as Hs.
  destruct (value_bool response "_success" false) as [[] | e]; simpl.
  - by eexists.
  - pose proof (proj1 (json_value_std_only response "_msg")
                  "No error message") as Hm.
    destruct (value_string response "_msg" "No error message") as [msg | e];
      simpl; [by eexists |].
    destruct Hm as [w ->]. by eexists.
  - destruct Hs as [w ->]. by eexists.
Qed.

Lemma task_std_only data client_id :
  std_only (parse data) ->
  (forall j, std_only (dump j)) ->
  (forall text id, std_only (transport_send text id)) ->
  (forall command (handler : Handler) request,
      handlers_ !! command = Some handler -> std_only (handler request)) ->
  (task parse dump transport_send handlers_ data client_id []).1 = Ok tt.
Proof.
  intros Hparse Hdump Hsend Hhandlers.
  destruct (respond_std_only data Hparse Hhandlers) as [response Hresp].
  unfold task, bind.
  destruct (respond parse handlers_ data []) as [r rlog]. simpl in Hresp.
  subst r. unfold try_catch_std, bind, lift, emit, ret.
  specialize (Hdump response).
  destruct (dump response) as [text | e]; simpl.
  - specialize (Hsend text client_id).
    destruct (transport_send text client_id) as [[] | e]; simpl; [done |].
    by destruct Hsend as [w ->].
  - by destruct Hdump as [w ->].
Qed.

(** X23: without a pool, and as long as nothing throws an exception foreign
    to [std::exception], the serving loop gets through every reception: a
    failed [receive], a failing handler or a failed send does not stop it,
    and what happens for one message, in order of arrival, is what its task
    does on its own. *)
Theorem serve_keeps_going (received : list (result (string * string))) :
  (forall data, std_only (parse data)) ->
  (forall j, std_only (dump j)) ->
  (forall text id, std_only (transport_send text id)) ->
  (forall command (handler : Handler) request,
      handlers_ !! command = Some handler -> std_only (handler request)) ->
  Forall std_only received ->
  serve parse dump transport_send handlers_ received []
  = (Ok tt,
     flat_map
       (fun r =>
          match r with
          | Ok message =>
              (task parse dump transport_send handlers_
                 message.1 message.2 []).2
          | Throw _ => []
          end) received).
Proof.
  intros Hparse Hdump Hsend Hhandlers Hreceived.
  assert (forall log,
             serve parse dump transport_send handlers_ received log
             = (Ok tt,
                log ++
                flat_map
                  (fun r =>
                     match r with
                     | Ok message =>
                         (task parse dump transport_send handlers_
                            message.1 message.2 []).2
                     | Throw _ => []
                     end) received)) as Hserve.
  { induction Hreceived as [| r rest Hr _ IH]; intros log.
    - simpl. unfold ret. by rewrite app_nil_r.
    - simpl. unfold bind at 1. unfold try_catch_std, bind, lift, ret.
      destruct r as [[data client_id] | e]; simpl.
      + rewrite task_log_append.
        rewrite (task_std_only data client_id (Hparse data) Hdump Hsend
                   Hhandlers).
        simpl. rewrite IH. by rewrite <- app_assoc.
      + destruct Hr as [w ->]. rewrite IH. done. }
  apply Hserve.
Qed.

End ServerMore.

(** ** More on the client *)

Section ClientMore.
Import Client.

Variable parse : string -> result json.
Variable dump : json -> result string.
Variable transport_send : string -> result string.

(** X24: what [send_request] returns, when it returns, is the parsed reply
    of the one round trip it made, and that reply is an object whose
    [_success] member is [true]. *)
Theorem send_request_returns_success endpoint request response log log' :
  send_request parse dump transport_send endpoint request log
  = (Ok response, log') ->
  exists fields text reply,
    response = JObject fields /\
    fields !! "_success" = Some (JBool true) /\
    log' = log ++ [TransportSend text] /\
    transport_send text = Ok reply /\
    parse reply = Ok response.
Proof.
  unfold send_request, bind, lift, emit, raise, ret.
  destruct (assign_cmd endpoint (copy_request request)) as [f |]; [| done].
  destruct (dump (full_request f)) as [text |]; [| done].
  destruct (transport_send text) as [reply |] eqn:Hsend; [| done].
  destruct (parse reply) as [answer |] eqn:Hparse; [| done].
  destruct (value_bool answer "_success" false) as [[] |] eqn:Hs;
    simpl; try done.
  2: { by destruct (value_string answer "_msg" "Unknown server error."). }
  intros [= <- <-].
  destruct answer as [| fields | | | | | | | |]; try done.
  exists fields, text, reply. repeat split; try done.
  simpl in Hs. by destruct (fields !! "_success") as [[| | | | [] | | | | |] |].
Qed.

(** X25: a reply whose [_success] member is [false] or missing makes
    [send_request] throw ["Request failed: "] followed by the reply's
    [_msg], or by ["Unknown server error."] when the reply has none. *)
Theorem send_request_rejects endpoint fields text reply rfields msg log :
  dump (JObject (<["_cmd" := JString endpoint]> fields)) = Ok text ->
  transport_send text = Ok reply ->
  parse reply = Ok (JObject rfields) ->
  rfields !! "_success" = None \/ rfields !! "_success" = Some (JBool false) ->
  rfields !! "_msg" = Some (JString msg) \/
  (rfields !! "_msg" = None /\ msg = "Unknown server error.") ->
  send_request parse dump transport_send endpoint (JObject fields) log
  = (Throw (runtime_error ("Request failed: " +:+ msg)),
     log ++ [TransportSend text]).
Proof.
  intros Hdump Hsend Hparse Hsuccess Hmsg.
  unfold send_request, bind, lift, emit, raise, ret. simpl.
  rewrite Hdump. simpl. rewrite Hsend, Hparse. simpl.
  assert (match rfields !! "_success" with
          | Some (JBool b) => Ok b
          | Some v =>
              Throw (json_exception
                       ("[json.exception.type_error.302] type must be boolean, but is "
                        +:+ type_name v))
          | None => Ok false
          end = Ok false) as -> by (by destruct Hsuccess as [-> | ->]).
  simpl. by destruct Hmsg as [-> | [-> ->]].
Qed.

(** X26: the envelopes built by the server's helpers meet the client's test:
    a reply made by [okay] from an object is returned by [send_request],
    with [_success] set and the other members as they were; a reply made
    by [error] makes it throw ["Request failed: "] followed by the
    message, whatever [_success] or [_msg] the object held before. *)
Theorem okay_accepted_error_rejected endpoint fields text reply body message
    log :
  dump (JObject (<["_cmd" := JString endpoint]> fields)) = Ok text ->
  transport_send text = Ok reply ->
  (parse reply = Server.okay (JObject body) ->
   send_request parse dump transport_send endpoint (JObject fields) log
   = (Ok (JObject (<["_success" := JBool true]> body)),
      log ++ [TransportSend text])) /\
  (parse reply = Server.error (JObject body) message ->
   send_request parse dump transport_send endpoint (JObject fields) log
   = (Throw (runtime_error ("Request failed: " +:+ message)),
      log ++ [TransportSend text])).
Proof.
  intros Hdump Hsend.
  split; intros Hparse;
    unfold send_request, bind, lift, emit, raise, ret; simpl;
    rewrite Hdump; simpl; rewrite Hsend, Hparse; simpl.
  - by rewrite lookup_insert_eq.
  - rewrite lookup_insert_ne by done. by rewrite !lookup_insert_eq.
Qed.

(** X27: with a callback that does not throw, the thread of
    [send_request_bg] ends normally after invoking the callback exactly
    once, after the round trip: with the response when [send_request]
    returned one, with a failure envelope carrying the error text when it
    threw a [std::exception]. *)
Theorem bg_reports_once endpoint request (callback : Callback) log :
  (forall arg, callback arg = Ok tt) ->
  std_only (send_request parse dump transport_send endpoint request log).1 ->
  exists arg,
    send_request_bg parse dump transport_send endpoint request callback log
    = (Ok tt,
       (send_request parse dump transport_send endpoint request log).2
       ++ [CallbackCall arg]) /\
    match (send_request parse dump transport_send endpoint request log).1 with
    | Ok response => arg = response
    | Throw e => exists what, std_what e = Some what /\
                              arg = failure_response what
    end.
Proof.
  intros Hcallback Hstd.
  pose proof (bg_callback_once parse dump transport_send endpoint request
                callback log Hcallback) as Hbg.
  destruct (send_request parse dump transport_send endpoint request log)
    as [[response | e] log']; simpl in *.
  - by exists response.
  - destruct Hstd as [what Hwhat]. rewrite Hwhat in Hbg.
    exists (failure_response what). split; [exact Hbg | by exists what].
Qed.

End ClientMore.

(** ** The properties above on examples *)

Lemma registered_handler_answers_witness :
  Server.respond parse_ping
    (Server.add_handler "ping" Server.okay
       (Server.add_handler "ping" (fun _ => Ok JNull) ∅)) "ping" []
  = (Ok (JObject (<["_success" := JBool true]> {["_cmd" := JString "ping"]})),
     [Server.Invoked "ping" ping_request]).
Proof.
  apply (registered_handler_answers parse_ping
           (Server.add_handler "ping" (fun _ => Ok JNull) ∅)
           "ping" Server.okay "ping" {["_cmd" := JString "ping"]});
    reflexivity.
Defined.

Lemma handler_exception_contained_witness :
  Server.respond parse_ping
    {["ping" := fun _ => Throw (runtime_error "out of fuel")]} "ping" []
  = (Ok (failure_response "Invalid JSON or internal error: out of fuel"),
     [Server.Invoked "ping" ping_request]).
Proof.
  apply (handler_exception_contained parse_ping
           {["ping" := fun _ => Throw (runtime_error "out of fuel")]}
           "ping" (fun _ => Throw (runtime_error "out of fuel")) "ping"
           ping_request (runtime_error "out of fuel") "out of fuel");
    reflexivity.
Defined.

Lemma handler_result_not_object_witness :
  exists what,
    Server.respond parse_ping {["ping" := fun _ => Ok (JArray [])]} "ping" []
    = (Ok (failure_response ("Invalid JSON or internal error: " +:+ what)),
       [Server.Invoked "ping" ping_request]).
Proof.
  apply (handler_result_not_object parse_ping
           {["ping" := fun _ => Ok (JArray [])]}
           "ping" (fun _ => Ok (JArray [])) "ping" ping_request (JArray []));
    reflexivity.
Defined.

Lemma serve_keeps_going_witness :
  ServerLoop.serve parse_empty_object (dump_text "reply")
    (fun _ _ => Throw (runtime_error "Failed to send")) ∅
    [Throw (runtime_error "Failed to accept connection"); Ok ("{}", "7");
     Ok ("{", "8")] []
  = (Ok tt, [Server.Send "reply" "7"; Server.Send "reply" "8"]).
Proof.
  etrans.
  { apply (serve_keeps_going parse_empty_object (dump_text "reply")
             (fun _ _ => Throw (runtime_error "Failed to send")) ∅
             [Throw (runtime_error "Failed to accept connection");
              Ok ("{}", "7"); Ok ("{", "8")]).
    - intros data. unfold parse_empty_object.
      destruct (String.eqb data "{}"); simpl; by eauto.
    - intros j. exact I.
    - intros text id. simpl. by eauto.
    - intros command handler request Hh. by rewrite lookup_empty in Hh.
    - repeat constructor; simpl; by eauto. }
  vm_compute. reflexivity.
Defined.

Lemma send_request_returns_success_witness :
  exists fields text reply,
    pong_reply = JObject fields /\
    fields !! "_success" = Some (JBool true) /\
    [Client.TransportSend "request"] = [] ++ [Client.TransportSend text] /\
    (fun _ : string => Ok "reply") text = Ok reply /\
    parse_pong reply = Ok pong_reply.
Proof.
  apply (send_request_returns_success parse_pong (dump_text "request")
           (fun _ => Ok "reply") "ping" (JObject ∅) pong_reply []
           [Client.TransportSend "request"]).
  reflexivity.
Defined.

Lemma send_request_rejects_witness :
  Client.send_request (fun _ => Ok (JObject ∅)) (dump_text "request")
    (fun _ => Ok "{}") "ping" (JObject ∅) []
  = (Throw (runtime_error "Request failed: Unknown server error."),
     [Client.TransportSend "request"]).
Proof.
  apply (send_request_rejects (fun _ => Ok (JObject ∅)) (dump_text "request")
           (fun _ => Ok "{}") "ping" ∅ "request" "{}" ∅
           "Unknown server error." []); try reflexivity.
  - by left.
  - by right.
Defined.

Lemma okay_accepted_error_rejected_witness :
  Client.send_request
    (fun _ => Server.error (JObject {["_success" := JBool true]}) "no")
    (dump_text "request") (fun _ => Ok "reply") "ping" (JObject ∅) []
  = (Throw (runtime_error "Request failed: no"),
     [Client.TransportSend "request"]).
Proof.
  destruct (okay_accepted_error_rejected
              (fun _ => Server.error (JObject {["_success" := JBool true]})
                          "no")
              (dump_text "request") (fun _ => Ok "reply") "ping" ∅
              "request" "reply" {["_success" := JBool true]} "no" [])
    as [_ Herror]; [reflexivity | reflexivity |].
  apply Herror. reflexivity.
Defined.

Lemma bg_reports_once_witness :
  exists arg,
    Client.send_request_bg (fun _ => Ok (JObject ∅)) (dump_text "request")
      (fun _ => Ok "{}") "ping" (JObject ∅) (fun _ => Ok tt) []
    = (Ok tt, [Client.TransportSend "request"] ++ [Client.CallbackCall arg]) /\
    exists what,
      Some "Request failed: Unknown server error." = Some what /\
      arg = failure_response what.
Proof.
  destruct (bg_reports_once (fun _ => Ok (JObject ∅)) (dump_text "request")
              (fun _ => Ok "{}") "ping" (JObject ∅) (fun _ => Ok tt) [])
    as (arg & Hbg & Harg).
  - done.
  - vm_compute. by eexists.
  - exists arg. split; [exact Hbg | exact Harg].
Defined.
